(** * A Rocq model of [contact_book.py]

    The program is a single Python class, [ContactBook], over one JSON file,
    and a menu loop that calls its methods.  This development embeds the
    class shallowly and proves the properties its specification states.

    - Python [str] values are Rocq [string]s, one [ascii] per character, read
      as the code points U+0000..U+00FF.  [str.lower] and [str.isdigit] are
      Python's functions on that range, where [lower] keeps the length.
    - [self.contacts], a [dict] from names to [dict]s of four strings, is an
      association list in insertion order; a [dict] holds each key once
      ([Dict.wf]).
    - The methods run in a state monad over the mapping in memory, the text
      of the backing file and the trace of what was printed and written.
      [datetime.now()] is an argument of [add_contact].
    - [json.dump] is the encoder of the standard library on such a mapping;
      [json.load] is its decoder on any text, with the objects it returns.

    - [main] and [display_menu] run in a second monad, over the book, the
      file, the lines still to be read from standard input and the output so
      far; [input] returns [None] for [EOFError] when the lines are used up.
      [main] is taken from the statement after [book = ContactBook()], with
      the mapping that call has loaded.

    Not modelled: errors of the file system and of the text encoding,
    [KeyboardInterrupt], and the recursion limit of the interpreter. *)

From Stdlib Require Import String Ascii List Bool Arith NArith ZArith Lia.
From Stdlib Require Import DecimalString.
Import ListNotations.
Open Scope list_scope.
Open Scope string_scope.

(** ** Python strings *)

Module PyStr.

(** [c.lower()] for one character below U+0100: the ASCII capitals and the
    Latin-1 capitals U+00C0..U+00DE (without the sign U+00D7) move up by 32. *)
Definition lower_char (c : ascii) : ascii :=
  let n := N_of_ascii c in
  if ((65 <=? n) && (n <=? 90)
      || (192 <=? n) && (n <=? 214)
      || (216 <=? n) && (n <=? 222))%N
  then ascii_of_N (n + 32) else c.

(** [s.lower()] *)
Fixpoint lower (s : string) : string :=
  match s with
  | EmptyString => EmptyString
  | String c r => String (lower_char c) (lower r)
  end.

(** The characters ['0'..'9']. *)
Definition is_decimal (c : ascii) : bool :=
  let n := N_of_ascii c in ((48 <=? n) && (n <=? 57))%N.

(** [c.isdigit()]: Python answers [True] for every character whose Unicode
    Numeric_Type is Digit or Decimal; below U+0100 these are ['0'..'9'] and
    the superscripts U+00B2, U+00B3 and U+00B9. *)
Definition isdigit (c : ascii) : bool :=
  let n := N_of_ascii c in
  (is_decimal c || (n =? 178) || (n =? 179) || (n =? 185))%N.

(** [s.replace(old, new)] for a one-character [old]. *)
Fixpoint replace (old : ascii) (new : string) (s : string) : string :=
  match s with
  | EmptyString => EmptyString
  | String c r =>
      if Ascii.eqb c old then new ++ replace old new r
      else String c (replace old new r)
  end.

(** [sum(1 for c in s if p(c))] *)
Fixpoint sum_ones (p : ascii -> bool) (s : string) : nat :=
  match s with
  | EmptyString => 0
  | String c r => (if p c then 1 else 0) + sum_ones p r
  end.

(** [needle in hay], the substring test. *)
Fixpoint str_in (needle hay : string) : bool :=
  prefix needle hay
  || match hay with
     | EmptyString => false
     | String _ r => str_in needle r
     end.

(** [x in xs] for a list of strings. *)
Definition list_in (x : string) (xs : list string) : bool :=
  existsb (String.eqb x) xs.

(** [c * n] *)
Fixpoint times (c : ascii) (n : nat) : string :=
  match n with
  | 0 => EmptyString
  | S k => String c (times c k)
  end.

(** [f"{s:<w}"]: left-aligned in a field of width [w], never truncated. *)
Definition ljust (w : nat) (s : string) : string :=
  s ++ times " " (w - String.length s).

(** Truth value of an optional string argument: [None] and [""] are false.
    [supplied o] is the value of a true argument. *)
Definition supplied (o : option string) : option string :=
  match o with
  | Some EmptyString => None
  | Some s => Some s
  | None => None
  end.

End PyStr.
Import PyStr.

(** ** The data model *)

(** The inner [dict] of a contact, with the four keys [add_contact] writes. *)
Record Contact : Type := mkContact {
  phone : string;
  email : string;
  address : string;
  date_added : string
}.

(** [self.contacts]: a [dict] in insertion order. *)
Definition Contacts : Type := list (string * Contact).

Module Dict.

Definition keys {V} (d : list (string * V)) : list string := map fst d.

(** [d[k]] *)
Fixpoint get {V} (k : string) (d : list (string * V)) : option V :=
  match d with
  | [] => None
  | (k', v) :: r => if String.eqb k' k then Some v else get k r
  end.

(** [d[k] = v]: an existing key keeps its place, a new one goes last. *)
Fixpoint set {V} (k : string) (v : V) (d : list (string * V))
  : list (string * V) :=
  match d with
  | [] => [(k, v)]
  | (k', v') :: r =>
      if String.eqb k' k then (k', v) :: r else (k', v') :: set k v r
  end.

(** [del d[k]] *)
Fixpoint del {V} (k : string) (d : list (string * V)) : list (string * V) :=
  match d with
  | [] => []
  | (k', v') :: r => if String.eqb k' k then r else (k', v') :: del k r
  end.

(** In-place change of the value stored under [k], as in [d[k][f] = x]. *)
Fixpoint modify {V} (k : string) (f : V -> V) (d : list (string * V))
  : list (string * V) :=
  match d with
  | [] => []
  | (k', v') :: r =>
      if String.eqb k' k then (k', f v') :: r else (k', v') :: modify k f r
  end.

(** [dict(pairs)] *)
Definition of_pairs {V} (pairs : list (string * V)) : list (string * V) :=
  fold_left (fun d kv => set (fst kv) (snd kv) d) pairs [].

(** A Python [dict] holds each key once. *)
Definition wf {V} (d : list (string * V)) : Prop := NoDup (keys d).

End Dict.

Definition set_phone (v : string) (c : Contact) : Contact :=
  mkContact v (email c) (address c) (date_added c).
Definition set_email (v : string) (c : Contact) : Contact :=
  mkContact (phone c) v (address c) (date_added c).
Definition set_address (v : string) (c : Contact) : Contact :=
  mkContact (phone c) (email c) v (date_added c).

(** ** [validate_phone] *)

Definition validate_phone (phone_number : string) : bool :=
  let clean_phone :=
    replace ")" "" (replace "(" "" (replace " " "" (replace "-" "" phone_number))) in
  let digits := sum_ones isdigit clean_phone in
  (10 <=? digits)%nat.

(** ** The [json] module

    [json.dump(obj, f, indent=4)] and [json.load(f)], after the pure-Python
    implementation of the standard library ([json/encoder.py],
    [json/decoder.py], [json/scanner.py]). *)

Module Json.

Definition dquote : ascii := "034"%char.
Definition newline : ascii := "010"%char.
Definition backslash : ascii := "092"%char.

(** A decoded Python [str], as code points: an escape [\uXXXX] of a JSON
    text may name any of them. *)
Definition ustr : Type := list N.

Definition ustr_of_string (s : string) : ustr :=
  map N_of_ascii (list_ascii_of_string s).

Fixpoint ustr_eqb (a b : ustr) : bool :=
  match a, b with
  | [], [] => true
  | x :: a', y :: b' => N.eqb x y && ustr_eqb a' b'
  | _, _ => false
  end.

(** The Python objects [json.load] returns.  A float is kept as its literal. *)
#[warnings="-register-all"] Inductive value : Type :=
| JNull
| JBool (b : bool)
| JInt (z : Z)
| JFloat (literal : string)
| JStr (s : ustr)
| JArr (items : list value)
| JObj (members : list (ustr * value)).

(** *** Encoder *)

Definition hex_digit (n : N) : ascii :=
  if (n <? 10)%N then ascii_of_N (48 + n) else ascii_of_N (87 + n).

(** One character of [py_encode_basestring_ascii]: the table [ESCAPE_DCT],
    and [\u00xx] for what else lies outside [' '..'~']. *)
Definition encode_char (c : ascii) : string :=
  let n := N_of_ascii c in
  if (n =? 92)%N then "\\"
  else if (n =? 34)%N then String backslash (String dquote "")
  else if (n =? 8)%N then "\b"
  else if (n =? 12)%N then "\f"
  else if (n =? 10)%N then "\n"
  else if (n =? 13)%N then "\r"
  else if (n =? 9)%N then "\t"
  else if ((n <? 32) || (126 <? n))%N then
    "\u00" ++ String (hex_digit (n / 16)) (String (hex_digit (n mod 16)) "")
  else String c "".

Fixpoint encode_chars (s : string) : string :=
  match s with
  | EmptyString => EmptyString
  | String c r => encode_char c ++ encode_chars r
  end.

Definition encode_str (s : string) : string :=
  String dquote (encode_chars s ++ String dquote "").

Definition newline_indent (indent level : nat) : string :=
  String newline (times " " (indent * level)).

(** [_iterencode_dict] at nesting [level], on the keys and the encoded
    values of a [dict], with the separators [","] and [": "]. *)
Definition encode_dict (indent level : nat) (items : list (string * string))
  : string :=
  match items with
  | [] => "{}"
  | _ =>
      "{" ++ newline_indent indent (S level)
      ++ String.concat ("," ++ newline_indent indent (S level))
           (map (fun kv => encode_str (fst kv) ++ ": " ++ snd kv) items)
      ++ newline_indent indent level ++ "}"
  end.

(** *** Decoder *)

Inductive result (A : Type) : Type :=
| Decoded (a : A) (rest : string)
| Invalid                     (* [JSONDecodeError] *)
| OutOfFuel.
Arguments Decoded {A} a rest.
Arguments Invalid {A}.
Arguments OutOfFuel {A}.

(** [WHITESPACE = [ \t\n\r]*] *)
Definition is_ws (c : ascii) : bool :=
  let n := N_of_ascii c in ((n =? 32) || (n =? 9) || (n =? 10) || (n =? 13))%N.

Fixpoint skip_ws (s : string) : string :=
  match s with
  | EmptyString => EmptyString
  | String c r => if is_ws c then skip_ws r else s
  end.

Definition hex_value (c : ascii) : option N :=
  let n := N_of_ascii c in
  if ((48 <=? n) && (n <=? 57))%N then Some (n - 48)%N
  else if ((97 <=? n) && (n <=? 102))%N then Some (n - 87)%N
  else if ((65 <=? n) && (n <=? 70))%N then Some (n - 55)%N
  else None.

(** [int(esc, 16)] on four hexadecimal digits. *)
Definition hex4 (a b c d : ascii) : option N :=
  match hex_value a, hex_value b, hex_value c, hex_value d with
  | Some x, Some y, Some z, Some w => Some (x * 4096 + y * 256 + z * 16 + w)%N
  | _, _, _, _ => None
  end.

(** The table [BACKSLASH]. *)
Definition unescape (e : ascii) : option N :=
  let n := N_of_ascii e in
  if ((n =? 34) || (n =? 92) || (n =? 47))%N then Some n
  else if (n =? 98)%N then Some 8%N
  else if (n =? 102)%N then Some 12%N
  else if (n =? 110)%N then Some 10%N
  else if (n =? 114)%N then Some 13%N
  else if (n =? 116)%N then Some 9%N
  else None.

Definition push (ch : N) (r : option (ustr * string)) : option (ustr * string) :=
  match r with
  | Some (cs, rest) => Some (ch :: cs, rest)
  | None => None
  end.

Definition is_high (u : N) : bool := ((55296 <=? u) && (u <=? 56319))%N.
Definition is_low (u : N) : bool := ((56320 <=? u) && (u <=? 57343))%N.

(** [py_scanstring] in strict mode, from the character after the opening
    quote: the decoded string and the text after the closing quote. *)
Fixpoint scanstring (s : string) : option (ustr * string) :=
  match s with
  | EmptyString => None
  | String c r =>
      if (N_of_ascii c =? 34)%N then Some ([], r)
      else if (N_of_ascii c =? 92)%N then
        match r with
        | EmptyString => None
        | String e r1 =>
            if (N_of_ascii e =? 117)%N then
              match r1 with
              | String a (String b (String c' (String d r2))) =>
                  match hex4 a b c' d with
                  | None => None
                  | Some uni =>
                      if is_high uni then
                        match r2 with
                        | String e1 (String e2 r3) =>
                            if ((N_of_ascii e1 =? 92) && (N_of_ascii e2 =? 117))%N
                            then
                              match r3 with
                              | String a2 (String b2 (String c2 (String d2 r4))) =>
                                  match hex4 a2 b2 c2 d2 with
                                  | None => None
                                  | Some uni2 =>
                                      if is_low uni2 then
                                        push (65536 + (N.lor (N.shiftl (uni - 55296) 10)
                                                             (uni2 - 56320)))%N
                                             (scanstring r4)
                                      else push uni (scanstring r2)
                                  end
                              | _ => None
                              end
                            else push uni (scanstring r2)
                        | _ => push uni (scanstring r2)
                        end
                      else push uni (scanstring r2)
                  end
              | _ => None
              end
            else
              match unescape e with
              | Some ch => push ch (scanstring r1)
              | None => None
              end
        end
      else if (N_of_ascii c <? 32)%N then None
      else push (N_of_ascii c) (scanstring r)
  end.

(** [dict(pairs)]: a repeated key keeps its first place and its last value. *)
Fixpoint obj_set (k : ustr) (v : value) (d : list (ustr * value))
  : list (ustr * value) :=
  match d with
  | [] => [(k, v)]
  | (k', v') :: r =>
      if ustr_eqb k' k then (k', v) :: r else (k', v') :: obj_set k v r
  end.

Definition dict_of_pairs (pairs : list (ustr * value)) : list (ustr * value) :=
  fold_left (fun d kv => obj_set (fst kv) (snd kv) d) pairs [].

(** [s[len(p):]] when [s] starts with [p]. *)
Fixpoint strip_prefix (p s : string) : option string :=
  match p, s with
  | EmptyString, _ => Some s
  | String a p', String b s' =>
      if Ascii.eqb a b then strip_prefix p' s' else None
  | String _ _, EmptyString => None
  end.

Fixpoint span_digits (s : string) : string * string :=
  match s with
  | EmptyString => (EmptyString, EmptyString)
  | String c r =>
      if is_decimal c then
        let (ds, rest) := span_digits r in (String c ds, rest)
      else (EmptyString, s)
  end.

Fixpoint int_of_digits (acc : Z) (ds : string) : Z :=
  match ds with
  | EmptyString => acc
  | String c r => int_of_digits (10 * acc + Z.of_N (N_of_ascii c - 48)) r
  end.

(** The integer part of [NUMBER_RE], an optional minus sign and then either
    a single zero or a digit from 1 to 9 and any digits: sign, digits, rest. *)
Definition scan_int (s : string) : option (bool * string * string) :=
  let (neg, s1) :=
    match s with
    | String c r => if (N_of_ascii c =? 45)%N then (true, r) else (false, s)
    | EmptyString => (false, s)
    end in
  match s1 with
  | EmptyString => None
  | String c r =>
      if (N_of_ascii c =? 48)%N then Some (neg, String c "", r)
      else if is_decimal c then
        let (ds, rest) := span_digits r in Some (neg, String c ds, rest)
      else None
  end.

(** The fraction [(\.[0-9]+)?]. *)
Definition scan_frac (s : string) : string * string :=
  match s with
  | String c r =>
      if (N_of_ascii c =? 46)%N then
        match span_digits r with
        | (EmptyString, _) => (EmptyString, s)
        | (ds, rest) => (String c ds, rest)
        end
      else (EmptyString, s)
  | EmptyString => (EmptyString, s)
  end.

(** The exponent [([eE][-+]?[0-9]+)?]. *)
Definition scan_exp (s : string) : string * string :=
  match s with
  | String c r =>
      if ((N_of_ascii c =? 101) || (N_of_ascii c =? 69))%N then
        let (sign, r1) :=
          match r with
          | String g r' =>
              if ((N_of_ascii g =? 45) || (N_of_ascii g =? 43))%N
              then (String g "", r') else (EmptyString, r)
          | EmptyString => (EmptyString, r)
          end in
        match span_digits r1 with
        | (EmptyString, _) => (EmptyString, s)
        | (ds, rest) => (String c (sign ++ ds), rest)
        end
      else (EmptyString, s)
  | EmptyString => (EmptyString, s)
  end.

(** [match_number]: an [int] without fraction and exponent, else a [float]. *)
Definition scan_number (s : string) : option (value * string) :=
  match scan_int s with
  | None => None
  | Some (neg, digits, r) =>
      let (frac, r1) := scan_frac r in
      let (exp, r2) := scan_exp r1 in
      match frac, exp with
      | EmptyString, EmptyString =>
          let n := int_of_digits 0 digits in
          Some (JInt (if neg then (- n)%Z else n), r2)
      | _, _ =>
          Some (JFloat ((if neg then "-" else "") ++ digits ++ frac ++ exp), r2)
      end
  end.

(** The constants [scan_once] knows, in its order around the number. *)
Definition scan_constant (s : string) : option (value * string) :=
  match strip_prefix "null" s with
  | Some r => Some (JNull, r)
  | None =>
  match strip_prefix "true" s with
  | Some r => Some (JBool true, r)
  | None =>
  match strip_prefix "false" s with
  | Some r => Some (JBool false, r)
  | None =>
  match scan_number s with
  | Some vr => Some vr
  | None =>
  match strip_prefix "NaN" s with
  | Some r => Some (JFloat "NaN", r)
  | None =>
  match strip_prefix "Infinity" s with
  | Some r => Some (JFloat "Infinity", r)
  | None =>
  match strip_prefix "-Infinity" s with
  | Some r => Some (JFloat "-Infinity", r)
  | None => None
  end end end end end end end.

(** [scan_once], [JSONObject] and [JSONArray].  Every call spends one unit
    of [fuel]; [members] starts after the opening quote of a key and
    [elements] at a value. *)
Fixpoint scan_once (fuel : nat) (s : string) : result value :=
  match fuel with
  | 0 => OutOfFuel
  | S n =>
      match s with
      | EmptyString => Invalid
      | String c r =>
          if (N_of_ascii c =? 34)%N then
            match scanstring r with
            | Some (str, rest) => Decoded (JStr str) rest
            | None => Invalid
            end
          else if (N_of_ascii c =? 123)%N then
            match skip_ws r with
            | String c1 r1 =>
                if (N_of_ascii c1 =? 125)%N then Decoded (JObj []) r1
                else if (N_of_ascii c1 =? 34)%N then members n [] r1
                else Invalid
            | EmptyString => Invalid
            end
          else if (N_of_ascii c =? 91)%N then
            match skip_ws r with
            | String c1 r1 =>
                if (N_of_ascii c1 =? 93)%N then Decoded (JArr []) r1
                else elements n [] (String c1 r1)
            | EmptyString => Invalid
            end
          else
            match scan_constant s with
            | Some (v, rest) => Decoded v rest
            | None => Invalid
            end
      end
  end

with members (fuel : nat) (pairs : list (ustr * value)) (s : string)
  : result value :=
  match fuel with
  | 0 => OutOfFuel
  | S n =>
      match scanstring s with
      | None => Invalid
      | Some (key, r) =>
          match skip_ws r with
          | String c r1 =>
              if (N_of_ascii c =? 58)%N then
                match scan_once n (skip_ws r1) with
                | Decoded v r2 =>
                    let pairs' := (pairs ++ [(key, v)])%list in
                    match skip_ws r2 with
                    | String c2 r3 =>
                        if (N_of_ascii c2 =? 125)%N then
                          Decoded (JObj (dict_of_pairs pairs')) r3
                        else if (N_of_ascii c2 =? 44)%N then
                          match skip_ws r3 with
                          | String c3 r4 =>
                              if (N_of_ascii c3 =? 34)%N
                              then members n pairs' r4 else Invalid
                          | EmptyString => Invalid
                          end
                        else Invalid
                    | EmptyString => Invalid
                    end
                | Invalid => Invalid
                | OutOfFuel => OutOfFuel
                end
              else Invalid
          | EmptyString => Invalid
          end
      end
  end

with elements (fuel : nat) (items : list value) (s : string) : result value :=
  match fuel with
  | 0 => OutOfFuel
  | S n =>
      match scan_once n s with
      | Decoded v r =>
          let items' := (items ++ [v])%list in
          match skip_ws r with
          | String c r1 =>
              if (N_of_ascii c =? 93)%N then Decoded (JArr items') r1
              else if (N_of_ascii c =? 44)%N then elements n items' (skip_ws r1)
              else Invalid
          | EmptyString => Invalid
          end
      | Invalid => Invalid
      | OutOfFuel => OutOfFuel
      end
  end.

(** [JSONDecoder.decode]: one value between white space, nothing after it.
    [None] is [JSONDecodeError].  The fuel is more than a text can use
    ([scan_once_fuel] below), so it never runs out. *)
Definition fuel_for (s : string) : nat := 1 + 2 * String.length s.

Definition loads (s : string) : option value :=
  match scan_once (fuel_for s) (skip_ws s) with
  | Decoded v rest =>
      match skip_ws rest with
      | EmptyString => Some v
      | String _ _ => None
      end
  | Invalid => None
  | OutOfFuel => None
  end.

End Json.

(** ** [datetime.now().strftime("%Y-%m-%d %H:%M:%S")] *)

(** A reading of the local clock. *)
Record datetime : Type := mkDatetime {
  year : nat; month : nat; day : nat;
  hour : nat; minute : nat; second : nat
}.

Definition digit (n : nat) : ascii := ascii_of_nat (48 + n mod 10).

(** Zero-padded decimals of two and of four places. *)
Definition dec2 (n : nat) : string :=
  String (digit (n / 10)) (String (digit n) "").
Definition dec4 (n : nat) : string :=
  String (digit (n / 1000)) (String (digit (n / 100)) (dec2 n)).

Definition strftime (t : datetime) : string :=
  dec4 (year t) ++ "-" ++ dec2 (month t) ++ "-" ++ dec2 (day t) ++ " "
  ++ dec2 (hour t) ++ ":" ++ dec2 (minute t) ++ ":" ++ dec2 (second t).

(** The readings a clock gives: the fields in the ranges of [datetime], with
    a year of four digits. *)
#[warnings="-abstract-large-number"] Definition clock_reading (t : datetime) : Prop :=
  1000 <= year t <= 9999 /\ 1 <= month t <= 12 /\ 1 <= day t <= 31
  /\ hour t <= 23 /\ minute t <= 59 /\ second t <= 59.

(** The shape [YYYY-MM-DD HH:MM:SS]: [d] stands for a digit ['0'..'9'], any
    other character of the pattern for itself. *)
Fixpoint has_shape (pattern s : string) : bool :=
  match pattern, s with
  | EmptyString, EmptyString => true
  | String p pattern', String c s' =>
      (if Ascii.eqb p "d" then is_decimal c else Ascii.eqb p c)
      && has_shape pattern' s'
  | _, _ => false
  end.

Definition is_timestamp (s : string) : bool :=
  has_shape "dddd-dd-dd dd:dd:dd" s.

(** ** The class [ContactBook] *)

(** What a method does to the outside: a line printed, or the backing file
    rewritten with new contents. *)
Inductive event : Type :=
| Printed (line : string)
| Written (content : string).

(** The state the methods run in: [self.contacts], the contents of the file
    [self.filename] ([None] when the file does not exist) and the events so
    far. *)
Record World : Type := mkWorld {
  contacts : Contacts;
  disk : option string;
  trace : list event
}.

Definition M (A : Type) : Type := World -> A * World.

Definition ret {A} (a : A) : M A := fun w => (a, w).

Definition bind {A B} (m : M A) (f : A -> M B) : M B :=
  fun w => let (a, w') := m w in f a w'.

Notation "x <- m ;; k" := (bind m (fun x => k))
  (at level 61, m at next level, right associativity).
Notation "m ;; k" := (bind m (fun _ => k))
  (at level 61, right associativity).

Definition print (line : string) : M unit :=
  fun w => (tt, mkWorld (contacts w) (disk w) (trace w ++ [Printed line])%list).

Definition write_file (content : string) : M unit :=
  fun w => (tt, mkWorld (contacts w) (Some content)
                        (trace w ++ [Written content])%list).

Definition read_file : M (option string) := fun w => (disk w, w).

Definition get_contacts : M Contacts := fun w => (contacts w, w).

Definition update_contacts (f : Contacts -> Contacts) : M unit :=
  fun w => (tt, mkWorld (f (contacts w)) (disk w) (trace w)).

(** [json.dumps(self.contacts, indent=4)] on a mapping of contacts. *)
Definition dumps_contact (indent level : nat) (c : Contact) : string :=
  Json.encode_dict indent level
    [("phone", Json.encode_str (phone c));
     ("email", Json.encode_str (email c));
     ("address", Json.encode_str (address c));
     ("date_added", Json.encode_str (date_added c))].

Definition dumps (indent : nat) (cs : Contacts) : string :=
  Json.encode_dict indent 0
    (map (fun kc => (fst kc, dumps_contact indent 1 (snd kc))) cs).

(** The Python object a mapping of contacts is. *)
Definition py_of_contact (c : Contact) : Json.value :=
  Json.JObj
    [(Json.ustr_of_string "phone", Json.JStr (Json.ustr_of_string (phone c)));
     (Json.ustr_of_string "email", Json.JStr (Json.ustr_of_string (email c)));
     (Json.ustr_of_string "address",
       Json.JStr (Json.ustr_of_string (address c)));
     (Json.ustr_of_string "date_added",
       Json.JStr (Json.ustr_of_string (date_added c)))].

Definition py_of_contacts (cs : Contacts) : Json.value :=
  Json.JObj
    (map (fun kc => (Json.ustr_of_string (fst kc), py_of_contact (snd kc))) cs).

(** The line [load_contacts] prints when the file cannot be decoded. *)
Definition notice : string :=
  "Error reading contacts file. Starting with empty contact list.".

(** [load_contacts]: [os.path.exists], then [json.load] under
    [except json.JSONDecodeError]. *)
Definition load_contacts : M Json.value :=
  file <- read_file ;;
  match file with
  | Some text =>
      match Json.loads text with
      | Some obj => ret obj
      | None =>
          print notice ;;
          ret (Json.JObj [])
      end
  | None => ret (Json.JObj [])
  end.

Definition save_contacts : M unit :=
  cs <- get_contacts ;;
  write_file (dumps 4 cs) ;;
  print "Contacts saved successfully!".

Definition add_contact (now : datetime)
    (name phone_number email address : string) : M bool :=
  cs <- get_contacts ;;
  if list_in (lower name) (map lower (Dict.keys cs)) then
    print ("Contact '" ++ name ++ "' already exists!") ;;
    ret false
  else if negb (validate_phone phone_number) then
    print "Invalid phone number format!" ;;
    ret false
  else
    update_contacts
      (Dict.set name (mkContact phone_number email address (strftime now))) ;;
    save_contacts ;;
    print ("Contact '" ++ name ++ "' added successfully!") ;;
    ret true.

(** The loop [for key in self.contacts: if key.lower() == name.lower(): ...
    break], shared by [edit_contact], [delete_contact] and
    [display_contact]. *)
Fixpoint find_key (name : string) (keys : list string) : option string :=
  match keys with
  | [] => None
  | key :: r =>
      if String.eqb (lower key) (lower name) then Some key
      else find_key name r
  end.

(** [if x: self.contacts[key][field] = x] *)
Definition set_if_supplied (key : string) (x : option string)
    (setter : string -> Contact -> Contact) : M unit :=
  match supplied x with
  | Some v => update_contacts (Dict.modify key (setter v))
  | None => ret tt
  end.

Definition edit_contact (name : string)
    (phone_number email address : option string) : M bool :=
  cs <- get_contacts ;;
  match find_key name (Dict.keys cs) with
  | None =>
      print ("Contact '" ++ name ++ "' not found!") ;;
      ret false
  | Some contact_key =>
      let finish : M bool :=
        set_if_supplied contact_key email set_email ;;
        set_if_supplied contact_key address set_address ;;
        save_contacts ;;
        print ("Contact '" ++ contact_key ++ "' updated successfully!") ;;
        ret true in
      match supplied phone_number with
      | Some p =>
          if negb (validate_phone p) then
            print "Invalid phone number format!" ;;
            ret false
          else
            update_contacts (Dict.modify contact_key (set_phone p)) ;;
            finish
      | None => finish
      end
  end.

(** The condition of [search_contact] on one item. *)
Definition search_match (query : string) (name : string) (details : Contact)
  : bool :=
  let query_lower := lower query in
  str_in query_lower (lower name)
  || str_in query (phone details)
  || str_in query_lower (lower (email details)).

Definition search_contact (query : string) : M (list (string * Contact)) :=
  cs <- get_contacts ;;
  ret (fold_left
         (fun results item =>
            if search_match query (fst item) (snd item)
            then (results ++ [item])%list else results)
         cs []).

Definition delete_contact (name : string) : M bool :=
  cs <- get_contacts ;;
  match find_key name (Dict.keys cs) with
  | None =>
      print ("Contact '" ++ name ++ "' not found!") ;;
      ret false
  | Some contact_key =>
      update_contacts (Dict.del contact_key) ;;
      save_contacts ;;
      print ("Contact '" ++ contact_key ++ "' deleted successfully!") ;;
      ret true
  end.

Definition rule (n : nat) : string := times "=" n.

Definition display_contact (name : string) : M bool :=
  cs <- get_contacts ;;
  match find_key name (Dict.keys cs) with
  | None =>
      print ("Contact '" ++ name ++ "' not found!") ;;
      ret false
  | Some contact_key =>
      match Dict.get contact_key cs with
      | Some details =>
          print (String Json.newline (rule 50)) ;;
          print ("Name: " ++ contact_key) ;;
          print ("Phone: " ++ phone details) ;;
          print ("Email: " ++ email details) ;;
          print ("Address: " ++ address details) ;;
          print ("Date Added: " ++ date_added details) ;;
          print (rule 50 ++ String Json.newline "") ;;
          ret true
      | None => ret false
      end
  end.

Fixpoint print_rows (cs : Contacts) : M unit :=
  match cs with
  | [] => ret tt
  | (name, details) :: r =>
      print (ljust 20 name ++ " " ++ ljust 15 (phone details) ++ " "
             ++ ljust 25 (email details)) ;;
      print_rows r
  end.

Definition list_all_contacts : M unit :=
  cs <- get_contacts ;;
  match cs with
  | [] => print "No contacts found!"
  | _ =>
      print (String Json.newline (rule 70)) ;;
      print (ljust 20 "Name" ++ " " ++ ljust 15 "Phone" ++ " " ++ ljust 25 "Email") ;;
      print (rule 70) ;;
      print_rows cs ;;
      print (rule 70 ++ String Json.newline "")
  end.

(** The calls a session makes on its [ContactBook], and a session as the
    list of its calls. *)
Inductive call : Type :=
| CallAdd (now : datetime) (name phone_number email address : string)
| CallEdit (name : string) (phone_number email address : option string)
| CallSearch (query : string)
| CallDelete (name : string)
| CallDisplay (name : string)
| CallListAll.

Definition run_call (c : call) (w : World) : World :=
  match c with
  | CallAdd now n p e a => snd (add_contact now n p e a w)
  | CallEdit n p e a => snd (edit_contact n p e a w)
  | CallSearch q => snd (search_contact q w)
  | CallDelete n => snd (delete_contact n w)
  | CallDisplay n => snd (display_contact n w)
  | CallListAll => snd (list_all_contacts w)
  end.

Definition run_session (calls : list call) (w : World) : World :=
  fold_left (fun w c => run_call c w) calls w.

(** ** The specification's vocabulary *)

Module Spec.

(** "hyphen, space, open parenthesis, and close parenthesis" *)
Definition is_separator (c : ascii) : bool :=
  Ascii.eqb c "-" || Ascii.eqb c " " || Ascii.eqb c "(" || Ascii.eqb c ")".

(** The characters of [p] "after removing every" separator. *)
Definition remove_separators (p : string) : list ascii :=
  filter (fun c => negb (is_separator c)) (list_ascii_of_string p).

(** "the number of decimal-digit characters remaining" *)
Definition decimal_digits (p : string) : nat :=
  length (filter is_decimal (remove_separators p)).

(** The number of remaining characters that [str.isdigit] accepts. *)
Definition digit_characters (p : string) : nat :=
  length (filter isdigit (remove_separators p)).

Definition is_ascii (p : string) : Prop :=
  Forall (fun c => (N_of_ascii c < 128)%N) (list_ascii_of_string p).

(** [t] is a substring of [s]. *)
Definition substring_of (t s : string) : Prop :=
  exists pre post, s = pre ++ t ++ post.

(** Equality "under case-insensitive comparison": of the lowercased forms. *)
Definition ci_equal (a b : string) : Prop := lower a = lower b.

(** [q] is a case-insensitive substring of [s]: some substring of [s] equals
    [q] up to letter case. *)
Definition ci_substring_of (q s : string) : Prop :=
  exists t, substring_of t s /\ ci_equal t q.

(** "a case-insensitive match for name" among the keys. *)
Definition has_match (name : string) (cs : Contacts) : Prop :=
  exists key, In key (Dict.keys cs) /\ ci_equal key name.

(** "no two keys are equal under case-insensitive comparison" *)
Definition ci_unique (cs : Contacts) : Prop :=
  NoDup (map lower (Dict.keys cs)).

(** "a structured record-of-records": an object whose members are objects. *)
Definition is_record_of_records (v : Json.value) : Prop :=
  exists members,
    v = Json.JObj members
    /\ forall k x, In (k, x) members -> exists fields, x = Json.JObj fields.

(** The three ways a contact matches a query. *)
Definition matches (query name : string) (details : Contact) : Prop :=
  ci_substring_of query name
  \/ substring_of query (phone details)
  \/ ci_substring_of query (email details).

End Spec.

(** ** Outcomes of the methods *)

(** The world after one more line was printed. *)
Definition printed (line : string) (w : World) : World :=
  mkWorld (contacts w) (disk w) (trace w ++ [Printed line]).

(** The world after [self.contacts] became [cs], was written to the file by
    [save_contacts] and [lines] were printed after that. *)
Definition saved (cs : Contacts) (lines : list string) (w : World) : World :=
  mkWorld cs (Some (dumps 4 cs))
    (trace w ++ Written (dumps 4 cs) :: Printed "Contacts saved successfully!"
             :: map Printed lines).

(** The mapping after [edit_contact] assigned the supplied fields of [key]. *)
Definition edited (key : string) (new_phone new_email new_address : option string)
    (cs : Contacts) : Contacts :=
  let assign x setter cs :=
    match supplied x with
    | Some v => Dict.modify key (setter v) cs
    | None => cs
    end in
  assign new_address set_address
    (assign new_email set_email (assign new_phone set_phone cs)).

(** Methods that leave [self.contacts] as it is. *)
Definition keeps_contacts {A} (m : M A) : Prop :=
  forall w, contacts (snd (m w)) = contacts w.

(** No file, or a file [json.load] rejects. *)
Definition unreadable (w : World) : Prop :=
  match disk w with
  | None => True
  | Some text => Json.loads text = None
  end.

(** ** Vocabulary of the codec proofs *)

(** An item of a [dict] under the encoder: its key, the text of its value
    and the value the text stands for. *)
Definition item : Type := string * string * Json.value.
Definition item_text (it : item) : string * string := (fst (fst it), snd (fst it)).
Definition item_pair (it : item) : Json.ustr * Json.value :=
  (Json.ustr_of_string (fst (fst it)), snd it).

(** What [encode_dict] writes after the opening quote of the first key. *)
Fixpoint members_text (indent level : nat) (its : list item) : string :=
  match its with
  | [] => ""
  | it :: more =>
      Json.encode_chars (fst (fst it))
      ++ String Json.dquote
           (": " ++ snd (fst it)
            ++ match more with
               | [] => Json.newline_indent indent level ++ "}"
               | _ :: _ =>
                   "," ++ Json.newline_indent indent (S level)
                   ++ String Json.dquote (members_text indent level more)
               end)
  end.

(** The text [t] starts a value: with fuel [f] or more, [scan_once] reads
    [v] from it and stops right after it. *)
Definition decodes (f : nat) (t : string) (v : Json.value) : Prop :=
  (forall rest, Json.skip_ws (t ++ rest) = t ++ rest)
  /\ (forall n rest, f <= n -> Json.scan_once n (t ++ rest) = Json.Decoded v rest).

Definition contact_items (c : Contact) : list item :=
  [("phone", Json.encode_str (phone c), Json.JStr (Json.ustr_of_string (phone c)));
   ("email", Json.encode_str (email c), Json.JStr (Json.ustr_of_string (email c)));
   ("address", Json.encode_str (address c),
     Json.JStr (Json.ustr_of_string (address c)));
   ("date_added", Json.encode_str (date_added c),
     Json.JStr (Json.ustr_of_string (date_added c)))].

Definition contacts_items (indent : nat) (cs : Contacts) : list item :=
  map (fun kc => (fst kc, dumps_contact indent 1 (snd kc), py_of_contact (snd kc))) cs.

(** [x] is an answer of the decoder on [s]: not a lack of fuel, and what it
    leaves unread is shorter than [s]. *)
Definition answers (x : Json.result Json.value) (s : string) : Prop :=
  x <> Json.OutOfFuel
  /\ forall v r, x = Json.Decoded v r -> String.length r < String.length s.

(** ** Sample data *)

Definition empty_world : World := mkWorld [] None [].

Definition new_year : datetime := mkDatetime 2024 1 1 10 0 0.
Definition next_day : datetime := mkDatetime 2024 1 2 11 30 0.

(** After [add("Carol", "5551234567", "c@example.com")]. *)
Definition carol_world : World :=
  snd (add_contact new_year "Carol" "5551234567" "c@example.com" "" empty_world).

(** After [edit("carol", None, "new@example.com", None)]. *)
Definition carol_edited : World :=
  snd (edit_contact "carol" None (Some "new@example.com") None carol_world).

Definition session : list call :=
  [CallAdd new_year "Alice" "5551234567" "" "";
   CallAdd next_day "ALICE" "5550000000" "" "";
   CallAdd next_day "Bob" "(555) 123-4567" "bob@example.com" "";
   CallEdit "alice" None (Some "a@example.com") None;
   CallSearch "555";
   CallDisplay "BOB";
   CallDelete "bob";
   CallListAll].

(** Ten times U+00B2, SUPERSCRIPT TWO. *)
Definition superscript_twos : string := times "178" 10.

Definition quoted (s : string) : string :=
  String Json.dquote (s ++ String Json.dquote "").

Definition contact_text (p d : string) : string :=
  "{" ++ quoted "phone" ++ ": " ++ quoted p ++ ", "
  ++ quoted "email" ++ ": " ++ quoted "" ++ ", "
  ++ quoted "address" ++ ": " ++ quoted "" ++ ", "
  ++ quoted "date_added" ++ ": " ++ quoted d ++ "}".

(** A contacts file, edited by hand, with the names [Bob] and [bob]. *)
Definition duplicate_names_file : string :=
  "{" ++ quoted "Bob" ++ ": " ++ contact_text "5551234567" "2024-01-01 10:00:00"
  ++ ", " ++ quoted "bob" ++ ": " ++ contact_text "5559876543" "2024-01-02 11:30:00"
  ++ "}".

Definition duplicate_names : Contacts :=
  [("Bob", mkContact "5551234567" "" "" "2024-01-01 10:00:00");
   ("bob", mkContact "5559876543" "" "" "2024-01-02 11:30:00")].

(** The world at start-up with that file. *)
Definition duplicate_names_world : World :=
  mkWorld [] (Some duplicate_names_file) [].

(** A file that holds a JSON array. *)
Definition array_world : World := mkWorld [] (Some "[1, 2]") [].

(** A file that is no JSON text. *)
Definition broken_world : World := mkWorld [] (Some "{oops") [].

(** ** More of the specification's vocabulary *)

(** The file holds what [save_contacts] writes for the mapping in memory. *)
Definition in_sync (w : World) : Prop :=
  disk w = Some (dumps 4 (contacts w)).

(** Every stored phone number passes [validate_phone]. *)
Definition phones_valid (cs : Contacts) : Prop :=
  Forall (fun kc => validate_phone (phone (snd kc)) = true) cs.

(** The characters [json.dump] writes with [ensure_ascii]: the printable
    ASCII characters and the line feed of the indentation. *)
Definition is_plain (c : ascii) : bool :=
  let n := N_of_ascii c in (((32 <=? n) && (n <=? 126)) || (n =? 10))%N.

(** A text of plain characters. *)
Definition plain (s : string) : Prop :=
  Forall (fun c => is_plain c = true) (list_ascii_of_string s).

(** The world a method leaves, without its events. *)
Definition store_of (w : World) : Contacts * option string :=
  (contacts w, disk w).

(** The lines of [display_contact] for the contact [details] under [key]. *)
Definition contact_card (key : string) (details : Contact) : list string :=
  [String Json.newline (rule 50);
   "Name: " ++ key;
   "Phone: " ++ phone details;
   "Email: " ++ email details;
   "Address: " ++ address details;
   "Date Added: " ++ date_added details;
   rule 50 ++ String Json.newline ""].

(** One row of the table of [list_all_contacts]. *)
Definition table_row (item : string * Contact) : string :=
  ljust 20 (fst item) ++ " " ++ ljust 15 (phone (snd item)) ++ " "
  ++ ljust 25 (email (snd item)).

(** The lines of [list_all_contacts] for a mapping. *)
Definition table (cs : Contacts) : list string :=
  match cs with
  | [] => ["No contacts found!"]
  | _ =>
      String Json.newline (rule 70)
      :: (ljust 20 "Name" ++ " " ++ ljust 15 "Phone" ++ " " ++ ljust 25 "Email")
      :: rule 70
      :: (map table_row cs ++ [(rule 70 ++ String Json.newline "")%string])%list
  end.

(** ** The menu loop [main] *)

Module Shell.

(** [c.isspace()] below U+0100. *)
Definition isspace (c : ascii) : bool :=
  let n := N_of_ascii c in
  (((9 <=? n) && (n <=? 13)) || ((28 <=? n) && (n <=? 32))
   || (n =? 133) || (n =? 160))%N.

Fixpoint lstrip (s : string) : string :=
  match s with
  | EmptyString => EmptyString
  | String c r => if isspace c then lstrip r else s
  end.

Fixpoint rstrip (s : string) : string :=
  match s with
  | EmptyString => EmptyString
  | String c r =>
      match rstrip r with
      | EmptyString => if isspace c then EmptyString else String c EmptyString
      | r' => String c r'
      end
  end.

(** [s.strip()] *)
Definition strip (s : string) : string := rstrip (lstrip s).

(** [x or None] *)
Definition or_none (x : string) : option string :=
  match x with
  | EmptyString => None
  | _ => Some x
  end.

(** [str(n)] *)
Definition str_of_nat (n : nat) : string :=
  NilEmpty.string_of_uint (Nat.to_uint n).

(** What the terminal shows and the file receives: the events of the
    methods, and the prompts of [input]. *)
Inductive output : Type :=
| Shown (e : event)
| Prompted (prompt : string).

(** The program between two statements of [main]: the mapping of [book],
    the text of its file, the lines still to be read from standard input
    and the output so far. *)
Record Console : Type := mkConsole {
  book : Contacts;
  file : option string;
  stdin : list string;
  terminal : list output
}.

(** A statement of [main]: [None] when [input] raised [EOFError]. *)
Definition Sh (A : Type) : Type := Console -> option A * Console.

Definition sret {A} (a : A) : Sh A := fun c => (Some a, c).

Definition sbind {A B} (m : Sh A) (f : A -> Sh B) : Sh B :=
  fun c =>
    match m c with
    | (Some a, c') => f a c'
    | (None, c') => (None, c')
    end.

Notation "x <~ m ;; k" := (sbind m (fun x => k))
  (at level 61, m at next level, right associativity).
Notation "m ;;; k" := (sbind m (fun _ => k))
  (at level 61, right associativity).

(** [print(line)] in [main] and [display_menu]. *)
Definition say (line : string) : Sh unit :=
  fun c => (Some tt, mkConsole (book c) (file c) (stdin c)
                       (terminal c ++ [Shown (Printed line)])%list).

(** [input(prompt).strip()]: the prompt is written, then a line is read. *)
Definition input (prompt : string) : Sh string :=
  fun c =>
    let shown := (terminal c ++ [Prompted prompt])%list in
    match stdin c with
    | [] => (None, mkConsole (book c) (file c) [] shown)
    | line :: rest => (Some (strip line), mkConsole (book c) (file c) rest shown)
    end.

(** A method of [book]: it runs on the mapping and the file, and its events
    go to the output. *)
Definition invoke {A} (m : M A) : Sh A :=
  fun c =>
    let (a, w) := m (mkWorld (book c) (file c) []) in
    (Some a, mkConsole (contacts w) (disk w) (stdin c)
               (terminal c ++ map Shown (trace w))%list).

Definition display_menu : Sh unit :=
  say (String Json.newline (rule 50)) ;;;
  say "        CONTACT BOOK APPLICATION" ;;;
  say (rule 50) ;;;
  say "1. Add a new contact" ;;;
  say "2. Search for a contact" ;;;
  say "3. Edit a contact" ;;;
  say "4. Delete a contact" ;;;
  say "5. Display a specific contact" ;;;
  say "6. List all contacts" ;;;
  say "7. Exit" ;;;
  say (rule 50).

(** The loop over the results of a search. *)
Fixpoint show_results (results : list (string * Contact)) : Sh unit :=
  match results with
  | [] => sret tt
  | (name, details) :: rest =>
      say (String Json.newline ("Name: " ++ name)) ;;;
      say ("Phone: " ++ phone details) ;;;
      say ("Email: " ++ email details) ;;;
      say ("Address: " ++ address details) ;;;
      show_results rest
  end.

(** The branches of [if choice == ...] in the body of [while True]: [true] to
    go on, [false] at [break].  [now] is the reading of the clock during
    this turn. *)
Definition act (now : datetime) (choice : string) : Sh bool :=
  if String.eqb choice "1" then
    name <~ input "Enter contact name: " ;;
    phone_number <~ input "Enter phone number: " ;;
    email <~ input "Enter email (optional): " ;;
    address <~ input "Enter address (optional): " ;;
    invoke (add_contact now name phone_number email address) ;;;
    sret true
  else if String.eqb choice "2" then
    query <~ input "Enter name, phone number, or email to search: " ;;
    results <~ invoke (search_contact query) ;;
    match results with
    | [] => say ("No contacts found matching '" ++ query ++ "'!")
    | _ :: _ =>
        say (String Json.newline (rule 70)) ;;;
        say ("Found " ++ str_of_nat (length results) ++ " result(s):") ;;;
        say (rule 70) ;;;
        show_results results ;;;
        say (rule 70 ++ String Json.newline "")
    end ;;;
    sret true
  else if String.eqb choice "3" then
    name <~ input "Enter contact name to edit: " ;;
    say "Leave fields empty to skip editing" ;;;
    phone_number <~ input "Enter new phone number (optional): " ;;
    email <~ input "Enter new email (optional): " ;;
    address <~ input "Enter new address (optional): " ;;
    invoke (edit_contact name (or_none phone_number) (or_none email)
            (or_none address)) ;;;
    sret true
  else if String.eqb choice "4" then
    name <~ input "Enter contact name to delete: " ;;
    confirm <~ input ("Are you sure you want to delete '" ++ name
                      ++ "'? (yes/no): ") ;;
    (if String.eqb (lower confirm) "yes" then
       invoke (delete_contact name) ;;; sret tt
     else say "Deletion cancelled.") ;;;
    sret true
  else if String.eqb choice "5" then
    name <~ input "Enter contact name to display: " ;;
    invoke (display_contact name) ;;;
    sret true
  else if String.eqb choice "6" then
    invoke list_all_contacts ;;;
    sret true
  else if String.eqb choice "7" then
    say "Thank you for using Contact Book! Goodbye!" ;;;
    sret false
  else
    say "Invalid choice! Please try again." ;;;
    sret true.

(** The body of [while True]. *)
Definition turn (now : datetime) : Sh bool :=
  display_menu ;;;
  choice <~ input "Enter your choice (1-7): " ;;
  act now choice.

(** How [main] ends: at [break], or with [EOFError] when the input is used
    up.  [NoFuel] belongs to the model alone. *)
Inductive ending : Type := Stopped | EOFError | NoFuel.

(** [while True], with the readings of the clock turn by turn. *)
Fixpoint menu_loop (fuel : nat) (clock : nat -> datetime) (c : Console)
  : ending * Console :=
  match fuel with
  | 0 => (NoFuel, c)
  | S n =>
      match turn (clock 0) c with
      | (None, c') => (EOFError, c')
      | (Some false, c') => (Stopped, c')
      | (Some true, c') => menu_loop n (fun i => clock (S i)) c'
      end
  end.

(** [main], from the console [book = ContactBook()] left.  Every turn reads
    a line, so one more turn than there are lines is enough. *)
Definition main (clock : nat -> datetime) (c : Console) : ending * Console :=
  menu_loop (S (length (stdin c))) clock c.

(** The world of the methods in a console. *)
Definition world_of (c : Console) : World := mkWorld (book c) (file c) [].

(** [c'] comes after [c] in a run: lines of the input were read, and the
    mapping and the file changed as by a session of method calls. *)
Definition follows (c c' : Console) : Prop :=
  (exists used, stdin c = (used ++ stdin c')%list)
  /\ (exists calls,
        store_of (run_session calls (world_of c)) = (book c', file c')).

(** A statement that only reads input, prints and calls methods, and that
    raises [EOFError] only when the input is used up. *)
Definition lawful {A} (m : Sh A) : Prop :=
  forall c,
    follows c (snd (m c))
    /\ (fst (m c) = None -> stdin (snd (m c)) = []).

(** A statement that does not end at [break]. *)
Definition goes_on (m : Sh bool) : Prop :=
  forall c c' b, m c = (Some b, c') -> b = true.

(** The words of [main] at [break]. *)
Definition goodbye : output :=
  Shown (Printed "Thank you for using Contact Book! Goodbye!").

End Shell.

(** A session at the terminal: Alice is added and looked up, a deletion is
    refused, then confirmed, and the user leaves. *)
Definition typed_lines : list string :=
  ["1"; " Alice "; "555 123 4567"; ""; "";
   "5"; "ALICE";
   "4"; "alice"; "no";
   "9";
   "4"; "alice"; " YES ";
   "7"; "never read"].

Definition fresh_console : Shell.Console :=
  Shell.mkConsole [] None typed_lines [].

(** The console after Carol was added, with lines still to be read. *)
Definition carol_console (lines : list string) : Shell.Console :=
  Shell.mkConsole (contacts carol_world) (disk carol_world) lines [].

(** A world whose file holds the empty mapping. *)
Definition synced_world : World := mkWorld [] (Some "{}") [].

(** The names [Alice], [Bob] and [bob], in the order of a mapping. *)
Definition three_names : list string := ["Alice"; "Bob"; "bob"].

(** * Proofs *)

Import Json.

(** ** Strings *)

Lemma append_assoc (a b c : string) : (a ++ b) ++ c = a ++ (b ++ c).
Proof. induction a as [|x a IH]; simpl; [reflexivity | now rewrite IH]. Qed.

Lemma append_nil_r (a : string) : a ++ "" = a.
Proof. induction a as [|x a IH]; simpl; [reflexivity | now rewrite IH]. Qed.

Lemma length_append (a b : string) :
  String.length (a ++ b) = String.length a + String.length b.
Proof. induction a as [|x a IH]; simpl; [reflexivity | now rewrite IH]. Qed.

Lemma list_of_replace (old : ascii) (s : string) :
  list_ascii_of_string (replace old "" s)
  = filter (fun c => negb (Ascii.eqb c old)) (list_ascii_of_string s).
Proof.
  induction s as [|c s IH]; simpl; [reflexivity|].
  destruct (Ascii.eqb c old); simpl; now rewrite IH.
Qed.

Lemma sum_ones_filter (p : ascii -> bool) (s : string) :
  sum_ones p s = length (filter p (list_ascii_of_string s)).
Proof.
  induction s as [|c s IH]; simpl; [reflexivity|].
  destruct (p c); simpl; now rewrite IH.
Qed.

Lemma filter_twice {A} (f g : A -> bool) (l : list A) :
  filter f (filter g l) = filter (fun x => g x && f x) l.
Proof.
  induction l as [|x l IH]; simpl; [reflexivity|].
  destruct (g x); simpl; [destruct (f x)|]; now rewrite IH.
Qed.

Lemma filter_all {A} (f : A -> bool) (l : list A) :
  (forall x, f x = true) -> filter f l = l.
Proof.
  intros H. induction l as [|x l IH]; simpl; [reflexivity|].
  now rewrite H, IH.
Qed.

Lemma clean_phone_spec (p : string) :
  list_ascii_of_string
    (replace ")" "" (replace "(" "" (replace " " "" (replace "-" "" p))))
  = Spec.remove_separators p.
Proof.
  rewrite !list_of_replace, !filter_twice. unfold Spec.remove_separators.
  apply filter_ext. intros c. unfold Spec.is_separator.
  now rewrite !negb_orb, !andb_assoc.
Qed.

Lemma isdigit_ascii (c : ascii) :
  (N_of_ascii c < 128)%N -> isdigit c = is_decimal c.
Proof.
  intros H. unfold isdigit.
  destruct (N.eqb_spec (N_of_ascii c) 178); [lia|].
  destruct (N.eqb_spec (N_of_ascii c) 179); [lia|].
  destruct (N.eqb_spec (N_of_ascii c) 185); [lia|].
  now rewrite !orb_false_r.
Qed.

(** ** Substrings and letter case *)

Lemma prefix_spec (a b : string) :
  prefix a b = true <-> exists post, b = a ++ post.
Proof.
  revert b. induction a as [|x a IH]; intros b; simpl.
  - destruct b; (split; [intros _; eexists; reflexivity | reflexivity]).
  - destruct b as [|y b]; [split; [discriminate | intros [? ?]; discriminate]|].
    simpl. destruct (ascii_dec x y) as [->|Hxy].
    + rewrite IH. split; intros [post H]; exists post; congruence.
    + split; [discriminate | intros [post H]; congruence].
Qed.

Lemma str_in_spec (needle hay : string) :
  str_in needle hay = true <-> Spec.substring_of needle hay.
Proof.
  unfold Spec.substring_of.
  induction hay as [|c hay IH]; cbn [str_in]; rewrite orb_true_iff, prefix_spec.
  - split.
    + intros [[post H]|H]; [now exists "", post | discriminate].
    + intros (pre & post & H). left. destruct pre; [now exists post|discriminate].
  - rewrite IH. split.
    + intros [[post H]|(pre & post & H)].
      * now exists "", post.
      * exists (String c pre), post. simpl. now rewrite H.
    + intros (pre & post & H). destruct pre as [|x pre]; simpl in H.
      * left. now exists post.
      * right. exists pre, post. congruence.
Qed.

Lemma str_in_empty (s : string) : str_in "" s = true.
Proof. destruct s; reflexivity. Qed.

Lemma lower_append (a b : string) : lower (a ++ b) = lower a ++ lower b.
Proof. induction a as [|x a IH]; simpl; [reflexivity | now rewrite IH]. Qed.

Lemma lower_split (s x y : string) :
  lower s = x ++ y -> exists a b, s = a ++ b /\ lower a = x /\ lower b = y.
Proof.
  revert s. induction x as [|c x IH]; intros s H; simpl in H.
  - now exists "", s.
  - destruct s as [|d s]; [discriminate|]. simpl in H.
    injection H as Hc Hs. destruct (IH s Hs) as (a & b & -> & Ha & Hb).
    exists (String d a), b. simpl. now rewrite Hc, Ha.
Qed.

Lemma str_in_lower_spec (query s : string) :
  str_in (lower query) (lower s) = true <-> Spec.ci_substring_of query s.
Proof.
  rewrite str_in_spec. unfold Spec.ci_substring_of, Spec.substring_of, Spec.ci_equal.
  split.
  - intros (x & z & H).
    destruct (lower_split _ _ _ H) as (a & r & -> & Ha & Hr).
    destruct (lower_split _ _ _ Hr) as (t & b & -> & Ht & Hb).
    exists t. split; [now exists a, b | exact Ht].
  - intros (t & (pre & post & ->) & Ht).
    exists (lower pre), (lower post). now rewrite !lower_append, Ht.
Qed.

Lemma search_match_spec (query name : string) (details : Contact) :
  search_match query name details = true <-> Spec.matches query name details.
Proof.
  unfold search_match, Spec.matches.
  now rewrite !orb_true_iff, !str_in_lower_spec, str_in_spec, or_assoc.
Qed.

Lemma search_loop_filter (f : string * Contact -> bool) (cs acc : Contacts) :
  fold_left (fun results item => if f item then (results ++ [item])%list else results)
    cs acc
  = (acc ++ filter f cs)%list.
Proof.
  revert acc. induction cs as [|item cs IH]; intros acc; simpl.
  - now rewrite app_nil_r.
  - rewrite IH. destruct (f item); [now rewrite <- app_assoc | reflexivity].
Qed.

(** ** Lookups by name *)

Lemma list_in_spec (x : string) (xs : list string) :
  list_in x xs = true <-> In x xs.
Proof.
  unfold list_in. rewrite existsb_exists. split.
  - intros (y & Hy & E). apply String.eqb_eq in E. now subst.
  - intros H. exists x. split; [exact H | apply String.eqb_refl].
Qed.

Lemma exists_check_spec (name : string) (cs : Contacts) :
  list_in (lower name) (map lower (Dict.keys cs)) = true <-> Spec.has_match name cs.
Proof.
  rewrite list_in_spec, in_map_iff. unfold Spec.has_match, Spec.ci_equal.
  split; intros (key & H1 & H2); exists key; auto.
Qed.

Lemma find_key_none (name : string) (keys : list string) :
  find_key name keys = None <-> (forall key, In key keys -> lower key <> lower name).
Proof.
  induction keys as [|k keys IH]; simpl.
  - split; [intros _ key [] | reflexivity].
  - destruct (String.eqb_spec (lower k) (lower name)) as [E|E].
    + split; [discriminate | intros H; exfalso; apply (H k); auto].
    + rewrite IH. split.
      * intros H key [<-|Hin]; auto.
      * intros H key Hin. apply H. now right.
Qed.

Lemma find_key_some (name key : string) (keys : list string) :
  find_key name keys = Some key -> In key keys /\ lower key = lower name.
Proof.
  induction keys as [|k keys IH]; simpl; [discriminate|].
  destruct (String.eqb_spec (lower k) (lower name)) as [E|E].
  - intros [= <-]. auto.
  - intros H. destruct (IH H). auto.
Qed.

Lemma has_match_find_key (name : string) (cs : Contacts) :
  Spec.has_match name cs -> exists key, find_key name (Dict.keys cs) = Some key.
Proof.
  intros (k & Hin & E). destruct (find_key name (Dict.keys cs)) as [key|] eqn:F.
  - now exists key.
  - exfalso. exact (proj1 (find_key_none _ _) F k Hin E).
Qed.

Lemma no_match_not_in (name : string) (cs : Contacts) :
  ~ Spec.has_match name cs -> ~ In name (Dict.keys cs).
Proof. intros H Hin. apply H. now exists name. Qed.

(** ** Dictionaries *)

Section DictFacts.

Context {V : Type}.
Implicit Types (d : list (string * V)) (k : string).

Lemma dict_set_new (k : string) (v : V) (d : list (string * V)) :
  ~ In k (Dict.keys d) -> Dict.set k v d = (d ++ [(k, v)])%list.
Proof.
  induction d as [|[k' v'] d IH]; simpl; intros H; [reflexivity|].
  destruct (String.eqb_spec k' k) as [E|E]; [tauto|].
  rewrite IH; tauto.
Qed.

Lemma dict_get_last (k : string) (v : V) (d : list (string * V)) :
  ~ In k (Dict.keys d) -> Dict.get k (d ++ [(k, v)])%list = Some v.
Proof.
  induction d as [|[k' v'] d IH]; simpl; intros H.
  - now rewrite String.eqb_refl.
  - destruct (String.eqb_spec k' k) as [E|E]; [tauto|]. apply IH. tauto.
Qed.

Lemma dict_modify_keys (k : string) (f : V -> V) (d : list (string * V)) :
  Dict.keys (Dict.modify k f d) = Dict.keys d.
Proof.
  induction d as [|[k' v'] d IH]; simpl; [reflexivity|].
  destruct (String.eqb k' k); simpl; [reflexivity | now rewrite IH].
Qed.

Lemma dict_get_modify (k : string) (f : V -> V) (d : list (string * V)) :
  Dict.get k (Dict.modify k f d) = option_map f (Dict.get k d).
Proof.
  induction d as [|[k' v'] d IH]; simpl; [reflexivity|].
  destruct (String.eqb k' k) eqn:E; simpl; rewrite E; [reflexivity | exact IH].
Qed.

Lemma dict_get_modify_other (k k0 : string) (f : V -> V) (d : list (string * V)) :
  k0 <> k -> Dict.get k0 (Dict.modify k f d) = Dict.get k0 d.
Proof.
  intros Hne. induction d as [|[k' v'] d IH]; simpl; [reflexivity|].
  destruct (String.eqb_spec k' k) as [E|E]; simpl.
  - subst k'. destruct (String.eqb_spec k k0); [congruence | reflexivity].
  - now rewrite IH.
Qed.

Lemma dict_get_in_keys (k : string) (d : list (string * V)) :
  In k (Dict.keys d) -> exists v, Dict.get k d = Some v.
Proof.
  induction d as [|[k' v'] d IH]; simpl; [intros []|].
  intros H. destruct (String.eqb_spec k' k) as [E|E]; [eauto|].
  apply IH. destruct H; [contradiction | assumption].
Qed.

Lemma dict_del_incl (k x : string) (d : list (string * V)) :
  In x (Dict.keys (Dict.del k d)) -> In x (Dict.keys d).
Proof.
  induction d as [|[k' v'] d IH]; simpl; [auto|].
  destruct (String.eqb k' k); simpl; tauto.
Qed.

Lemma dict_del_nodup (f : string -> string) (k : string) (d : list (string * V)) :
  NoDup (map f (Dict.keys d)) -> NoDup (map f (Dict.keys (Dict.del k d))).
Proof.
  induction d as [|[k' v'] d IH]; simpl; [auto|].
  intros H. inversion H as [|? ? Hnin Hnd]; subst.
  destruct (String.eqb k' k); simpl; [assumption|].
  constructor; [|auto].
  intros Hin. apply Hnin. apply in_map_iff in Hin as (y & <- & Hy).
  apply in_map. eapply dict_del_incl; eassumption.
Qed.

End DictFacts.

Lemma nodup_snoc {A} (l : list A) (x : A) :
  NoDup l -> ~ In x l -> NoDup (l ++ [x]).
Proof.
  intros Hl Hx. apply NoDup_app; [assumption | repeat constructor; intros [] |].
  intros y Hy [<-|[]]. contradiction.
Qed.

(** ** The methods, case by case *)

Lemma add_contact_cases
    (now : datetime) (name phone_number email address : string) (w : World) :
  add_contact now name phone_number email address w
  = if list_in (lower name) (map lower (Dict.keys (contacts w))) then
      (false, printed ("Contact '" ++ name ++ "' already exists!") w)
    else if validate_phone phone_number then
      (true,
       saved (Dict.set name (mkContact phone_number email address (strftime now))
                (contacts w))
         ["Contact '" ++ name ++ "' added successfully!"] w)
    else (false, printed "Invalid phone number format!" w).
Proof.
  unfold add_contact, bind, get_contacts, save_contacts, update_contacts,
    write_file, print, ret, printed, saved; simpl.
  destruct (list_in _ _); [reflexivity|].
  destruct (validate_phone phone_number); simpl; [|reflexivity].
  now rewrite <- !app_assoc.
Qed.

Lemma edit_contact_cases
    (name : string) (phone_number email address : option string) (w : World) :
  edit_contact name phone_number email address w
  = match find_key name (Dict.keys (contacts w)) with
    | None => (false, printed ("Contact '" ++ name ++ "' not found!") w)
    | Some key =>
        match supplied phone_number with
        | Some p =>
            if validate_phone p then
              (true, saved (edited key phone_number email address (contacts w))
                       ["Contact '" ++ key ++ "' updated successfully!"] w)
            else (false, printed "Invalid phone number format!" w)
        | None =>
            (true, saved (edited key phone_number email address (contacts w))
                     ["Contact '" ++ key ++ "' updated successfully!"] w)
        end
    end.
Proof.
  unfold edit_contact, bind, get_contacts, save_contacts, set_if_supplied,
    update_contacts, write_file, print, ret, printed, saved, edited; simpl.
  destruct (find_key _ _) as [key|]; [|reflexivity].
  destruct (supplied phone_number) as [p|];
    [destruct (validate_phone p); simpl; [|reflexivity]|];
    destruct (supplied email), (supplied address); simpl;
    now rewrite <- !app_assoc.
Qed.

Lemma delete_contact_cases (name : string) (w : World) :
  delete_contact name w
  = match find_key name (Dict.keys (contacts w)) with
    | None => (false, printed ("Contact '" ++ name ++ "' not found!") w)
    | Some key =>
        (true, saved (Dict.del key (contacts w))
                 ["Contact '" ++ key ++ "' deleted successfully!"] w)
    end.
Proof.
  unfold delete_contact, bind, get_contacts, save_contacts,
    update_contacts, write_file, print, ret, printed, saved; simpl.
  destruct (find_key _ _) as [key|]; [|reflexivity].
  simpl. now rewrite <- !app_assoc.
Qed.

Lemma edited_keys key ph e a cs :
  Dict.keys (edited key ph e a cs) = Dict.keys cs.
Proof.
  unfold edited. destruct (supplied ph), (supplied e), (supplied a);
    now rewrite ?dict_modify_keys.
Qed.

Lemma edited_get (key : string) (ph e a : option string) (cs : Contacts) :
  Dict.get key (edited key ph e a cs)
  = option_map
      (fun c =>
         mkContact
           (match supplied ph with Some v => v | None => phone c end)
           (match supplied e with Some v => v | None => email c end)
           (match supplied a with Some v => v | None => address c end)
           (date_added c))
      (Dict.get key cs).
Proof.
  unfold edited.
  destruct (supplied ph), (supplied e), (supplied a);
    rewrite ?dict_get_modify; destruct (Dict.get key cs) as [[? ? ? ?]|]; reflexivity.
Qed.

Lemma edited_get_other (key k : string) (ph e a : option string) (cs : Contacts) :
  k <> key -> Dict.get k (edited key ph e a cs) = Dict.get k cs.
Proof.
  intros H. unfold edited.
  destruct (supplied ph), (supplied e), (supplied a);
    now rewrite ?dict_get_modify_other by exact H.
Qed.

(** ** Methods that only read the mapping *)

Lemma keeps_ret {A} (a : A) : keeps_contacts (ret a).
Proof. intros w. reflexivity. Qed.

Lemma keeps_print (line : string) : keeps_contacts (print line).
Proof. intros w. reflexivity. Qed.

Lemma keeps_get_contacts : keeps_contacts get_contacts.
Proof. intros w. reflexivity. Qed.

Lemma keeps_bind {A B} (m : M A) (k : A -> M B) :
  keeps_contacts m -> (forall a, keeps_contacts (k a)) -> keeps_contacts (bind m k).
Proof.
  intros Hm Hk w. unfold bind. specialize (Hm w).
  destruct (m w) as [a w1]. simpl in Hm. now rewrite Hk.
Qed.

Create HintDb keeps.
#[local] Hint Resolve keeps_ret keeps_print keeps_get_contacts : keeps.

Ltac keeps_step :=
  repeat first [ apply keeps_bind; [|intros ?] | solve [auto with keeps] ].

Lemma keeps_print_rows (cs : Contacts) : keeps_contacts (print_rows cs).
Proof.
  induction cs as [|[name details] cs IH]; simpl; keeps_step.
Qed.

#[local] Hint Resolve keeps_print_rows : keeps.

Lemma keeps_list_all_contacts : keeps_contacts list_all_contacts.
Proof.
  unfold list_all_contacts. apply keeps_bind; [auto with keeps|].
  intros [|item cs]; keeps_step.
Qed.

Lemma keeps_display_contact (name : string) : keeps_contacts (display_contact name).
Proof.
  unfold display_contact. apply keeps_bind; [auto with keeps|]. intros cs.
  destruct (find_key _ _) as [key|]; [|keeps_step].
  destruct (Dict.get key cs); keeps_step.
Qed.

Lemma keeps_search_contact (query : string) : keeps_contacts (search_contact query).
Proof. unfold search_contact. keeps_step. Qed.

(** ** Case-insensitive uniqueness along a session *)

Lemma run_call_ci_unique (c : call) (w : World) :
  Spec.ci_unique (contacts w) -> Spec.ci_unique (contacts (run_call c w)).
Proof.
  unfold Spec.ci_unique. intros H. destruct c; cbn [run_call].
  - rewrite add_contact_cases.
    destruct (list_in _ _) eqn:E; [exact H|].
    destruct (validate_phone _); [|exact H]. simpl.
    assert (Hn : ~ Spec.has_match name (contacts w)).
    { intros Hm. apply exists_check_spec in Hm. congruence. }
    rewrite dict_set_new by now apply no_match_not_in.
    unfold Dict.keys. rewrite !map_app. simpl. apply nodup_snoc; [exact H|].
    intros Hin. apply in_map_iff in Hin as (key & Hk & Hin).
    apply Hn. now exists key.
  - rewrite edit_contact_cases.
    destruct (find_key _ _) as [key|]; [|exact H].
    destruct (supplied phone_number) as [p|];
      [destruct (validate_phone p); [|exact H]|];
      simpl; now rewrite edited_keys.
  - now rewrite keeps_search_contact.
  - rewrite delete_contact_cases.
    destruct (find_key _ _) as [key|]; [|exact H].
    simpl. now apply dict_del_nodup.
  - now rewrite keeps_display_contact.
  - now rewrite keeps_list_all_contacts.
Qed.

Lemma run_session_ci_unique (calls : list call) (w : World) :
  Spec.ci_unique (contacts w) -> Spec.ci_unique (contacts (run_session calls w)).
Proof.
  revert w. induction calls as [|c calls IH]; intros w H; simpl; [exact H|].
  apply IH. now apply run_call_ci_unique.
Qed.

Lemma ci_unique_wf (cs : Contacts) : Spec.ci_unique cs -> Dict.wf cs.
Proof. apply NoDup_map_inv. Qed.

(** ** The timestamp *)

Lemma digit_is_decimal (n : nat) : is_decimal (digit n) = true.
Proof.
  unfold digit. pose proof (Nat.mod_upper_bound n 10 ltac:(lia)) as H.
  destruct (n mod 10) as [|[|[|[|[|[|[|[|[|[|k]]]]]]]]]]; try reflexivity. lia.
Qed.

Lemma strftime_is_timestamp (t : datetime) : is_timestamp (strftime t) = true.
Proof.
  unfold is_timestamp, strftime, dec4, dec2. cbn [append has_shape].
  rewrite !digit_is_decimal. reflexivity.
Qed.

Lemma clock_reading_new_year : clock_reading new_year.
Proof. unfold clock_reading. repeat split; apply Nat.leb_le; reflexivity. Defined.

(** ** Decoding what the encoder wrote *)

Lemma scanstring_encode_char (c : ascii) (t : string) :
  scanstring (encode_char c ++ t) = push (N_of_ascii c) (scanstring t).
Proof.
  destruct c as [[] [] [] [] [] [] [] []]; reflexivity.
Qed.

Lemma scanstring_encode_chars (s rest : string) :
  scanstring (encode_chars s ++ String dquote rest)
  = Some (ustr_of_string s, rest).
Proof.
  induction s as [|c s IH]; [reflexivity|].
  cbn [encode_chars]. rewrite append_assoc, scanstring_encode_char, IH.
  reflexivity.
Qed.

Lemma skip_ws_spaces (n : nat) (s : string) :
  skip_ws (times " " n ++ s) = skip_ws s.
Proof. induction n as [|n IH]; simpl; [reflexivity | exact IH]. Qed.

Lemma skip_ws_newline_indent (indent level : nat) (s : string) :
  skip_ws (newline_indent indent level ++ s) = skip_ws s.
Proof. unfold newline_indent. simpl. apply skip_ws_spaces. Qed.

Lemma skip_ws_space (s : string) : skip_ws (String " " s) = skip_ws s.
Proof. reflexivity. Qed.

Ltac norm_append :=
  repeat first [rewrite !append_assoc | progress cbn [append]].

Lemma encode_str_append (k tail : string) :
  encode_str k ++ tail = String dquote (encode_chars k ++ String dquote tail).
Proof. unfold encode_str. cbn [append]. now rewrite append_assoc. Qed.

Lemma concat_cons2 (sep x y : string) (l : list string) :
  String.concat sep (x :: y :: l) = x ++ sep ++ String.concat sep (y :: l).
Proof. reflexivity. Qed.

Lemma members_text_cons2 (indent level : nat) (it it2 : item) (more : list item) :
  members_text indent level (it :: it2 :: more)
  = encode_chars (fst (fst it))
    ++ String dquote
         (": " ++ snd (fst it) ++ "," ++ newline_indent indent (S level)
          ++ String dquote (members_text indent level (it2 :: more))).
Proof. reflexivity. Qed.

Lemma concat_members (indent level : nat) (its : list item) (tail : string) :
  its <> [] ->
  String.concat ("," ++ newline_indent indent (S level))
    (map (fun kv => encode_str (fst kv) ++ ": " ++ snd kv) (map item_text its))
  ++ newline_indent indent level ++ "}" ++ tail
  = String dquote (members_text indent level its ++ tail).
Proof.
  induction its as [|it more IH]; [congruence|]. intros _.
  destruct more as [|it2 more].
  - cbn [map String.concat members_text item_text fst snd].
    norm_append. rewrite encode_str_append. reflexivity.
  - specialize (IH ltac:(discriminate)).
    cbn [map] in *. rewrite concat_cons2, members_text_cons2.
    rewrite (append_assoc _ _ (newline_indent indent level ++ "}" ++ tail)).
    rewrite (append_assoc _ _ (newline_indent indent level ++ "}" ++ tail)).
    rewrite IH. cbn [item_text fst snd].
    norm_append. rewrite encode_str_append. reflexivity.
Qed.

Lemma encode_dict_text (indent level : nat) (its : list item) (rest : string) :
  its <> [] ->
  encode_dict indent level (map item_text its) ++ rest
  = String "{" (newline_indent indent (S level)
                ++ String dquote (members_text indent level its ++ rest)).
Proof.
  intros Hne. unfold encode_dict.
  destruct (map item_text its) eqn:M; [destruct its; [congruence|discriminate]|].
  rewrite <- M. rewrite !append_assoc. now rewrite concat_members.
Qed.

Lemma decodes_str (s : string) : decodes 1 (encode_str s) (JStr (ustr_of_string s)).
Proof.
  split.
  - intros rest. rewrite encode_str_append. reflexivity.
  - intros n rest Hn. destruct n as [|n]; [lia|].
    rewrite encode_str_append. cbn [scan_once].
    change (N_of_ascii dquote =? 34)%N with true. cbv iota.
    now rewrite scanstring_encode_chars.
Qed.

Lemma members_decode (indent level f : nat) (its : list item) :
  its <> [] ->
  Forall (fun it => decodes f (snd (fst it)) (snd it)) its ->
  forall n acc rest,
    f + length its <= n ->
    members n acc (members_text indent level its ++ rest)
    = Decoded (JObj (dict_of_pairs (acc ++ map item_pair its))) rest.
Proof.
  induction its as [|it more IH]; [congruence|]. intros _ Hall.
  inversion Hall as [|? ? [Hws Hit] Hmore]; subst.
  intros n acc rest Hn. destruct n as [|n]; [simpl in Hn; lia|].
  cbn [members]. destruct more as [|it2 more].
  - cbn [members_text]. norm_append. rewrite scanstring_encode_chars.
    cbn [skip_ws is_ws]. cbv beta iota.
    change (is_ws ":") with false. change (is_ws " ") with true. cbv iota.
    change (N_of_ascii ":" =? 58)%N with true. cbv iota.
    rewrite skip_ws_space, Hws, Hit by (simpl in Hn; lia).
    rewrite skip_ws_newline_indent. cbn [skip_ws].
    change (is_ws "}") with false. cbv iota.
    change (N_of_ascii "}" =? 125)%N with true. cbv iota.
    reflexivity.
  - rewrite members_text_cons2. norm_append. rewrite scanstring_encode_chars.
    cbn [skip_ws is_ws]. cbv beta iota.
    change (is_ws ":") with false. change (is_ws " ") with true. cbv iota.
    change (N_of_ascii ":" =? 58)%N with true. cbv iota.
    rewrite skip_ws_space, Hws, Hit by (simpl in Hn; lia).
    cbn [skip_ws]. change (is_ws ",") with false. cbv iota.
    change (N_of_ascii "," =? 125)%N with false.
    change (N_of_ascii "," =? 44)%N with true. cbv iota.
    rewrite skip_ws_newline_indent. cbn [skip_ws].
    change (is_ws dquote) with false. cbv iota.
    change (N_of_ascii dquote =? 34)%N with true. cbv iota.
    rewrite IH; [|discriminate|exact Hmore|simpl in *; lia].
    cbn [map]. now rewrite <- app_assoc.
Qed.

Lemma decodes_dict (indent level f : nat) (its : list item) :
  Forall (fun it => decodes f (snd (fst it)) (snd it)) its ->
  decodes (S (f + length its)) (encode_dict indent level (map item_text its))
    (JObj (dict_of_pairs (map item_pair its))).
Proof.
  intros Hall. destruct its as [|it more].
  - split; [reflexivity|]. intros n rest Hn. destruct n as [|n]; [lia|]. reflexivity.
  - remember (it :: more) as its eqn:E.
    assert (Hne : its <> []) by (subst; discriminate).
    assert (Htext := fun rest => encode_dict_text indent level its rest Hne).
    split.
    + intros rest. rewrite Htext. reflexivity.
    + intros n rest Hn. destruct n as [|n]; [lia|].
      rewrite Htext. cbn [scan_once].
      change (N_of_ascii "{" =? 34)%N with false.
      change (N_of_ascii "{" =? 123)%N with true. cbv iota.
      rewrite skip_ws_newline_indent. cbn [skip_ws].
      change (is_ws dquote) with false. cbv iota.
      change (N_of_ascii dquote =? 125)%N with false.
      change (N_of_ascii dquote =? 34)%N with true. cbv iota.
      rewrite (members_decode indent level f its Hne Hall) by lia.
      reflexivity.
Qed.

(** ** [dict(pairs)] on distinct keys *)

Lemma ustr_eqb_spec (a b : ustr) : reflect (a = b) (ustr_eqb a b).
Proof.
  revert b. induction a as [|x a IH]; intros [|y b]; simpl;
    try (constructor; congruence).
  destruct (N.eqb_spec x y) as [->|Hxy]; simpl.
  - destruct (IH b) as [->|Hab]; constructor; congruence.
  - constructor; congruence.
Qed.

Lemma obj_set_new (k : ustr) (v : value) (d : list (ustr * value)) :
  ~ In k (map fst d) -> obj_set k v d = (d ++ [(k, v)])%list.
Proof.
  induction d as [|[k' v'] d IH]; simpl; intros H; [reflexivity|].
  destruct (ustr_eqb_spec k' k) as [E|E]; [tauto|]. rewrite IH; tauto.
Qed.

Lemma dict_of_pairs_distinct (acc pairs : list (ustr * value)) :
  NoDup (map fst (acc ++ pairs)) ->
  fold_left (fun d kv => obj_set (fst kv) (snd kv) d) pairs acc
  = (acc ++ pairs)%list.
Proof.
  revert acc. induction pairs as [|[k v] pairs IH]; intros acc H; simpl.
  - now rewrite app_nil_r.
  - assert (E : (acc ++ (k, v) :: pairs = (acc ++ [(k, v)]) ++ pairs)%list)
      by now rewrite <- app_assoc.
    rewrite E in *. rewrite obj_set_new.
    + now apply IH.
    + rewrite map_app in H. apply NoDup_app_remove_r in H.
      rewrite map_app in H. simpl in H.
      apply NoDup_remove_2 in H. now rewrite app_nil_r in H.
Qed.

Lemma ustr_of_string_inj (a b : string) :
  ustr_of_string a = ustr_of_string b -> a = b.
Proof.
  unfold ustr_of_string. revert b.
  induction a as [|x a IH]; intros [|y b]; simpl; try discriminate; [reflexivity|].
  intros [= Hxy Hab]. f_equal; [|now apply IH].
  rewrite <- (ascii_N_embedding x), <- (ascii_N_embedding y). now rewrite Hxy.
Qed.

(* lemmas *)

Lemma py_of_contact_inj (c1 c2 : Contact) :
  py_of_contact c1 = py_of_contact c2 -> c1 = c2.
Proof.
  destruct c1, c2. unfold py_of_contact. simpl.
  intros [= H1 H2 H3 H4].
  apply ustr_of_string_inj in H1, H2, H3, H4. now subst.
Qed.

Lemma py_of_contacts_inj (cs1 cs2 : Contacts) :
  py_of_contacts cs1 = py_of_contacts cs2 -> cs1 = cs2.
Proof.
  unfold py_of_contacts. intros [= H]. revert cs2 H.
  induction cs1 as [|[k1 c1] cs1 IH]; intros [|[k2 c2] cs2]; cbn [map fst snd];
    try discriminate; [reflexivity|].
  intros H. assert (Hk : ustr_of_string k1 = ustr_of_string k2) by congruence.
  assert (Hc : py_of_contact c1 = py_of_contact c2) by congruence.
  assert (Hr : map (fun kc => (ustr_of_string (fst kc), py_of_contact (snd kc))) cs1
               = map (fun kc => (ustr_of_string (fst kc), py_of_contact (snd kc))) cs2)
    by congruence.
  apply ustr_of_string_inj in Hk.
  apply py_of_contact_inj in Hc. subst. f_equal. now apply IH.
Qed.

(** ** A mapping of contacts, written and read back *)

Lemma decodes_contact (indent level : nat) (c : Contact) :
  decodes 6 (dumps_contact indent level c) (py_of_contact c).
Proof.
  assert (H : Forall (fun it => decodes 1 (snd (fst it)) (snd it)) (contact_items c)).
  { unfold contact_items. repeat constructor; apply decodes_str. }
  exact (decodes_dict indent level 1 (contact_items c) H).
Qed.

Lemma decodes_contacts (indent : nat) (cs : Contacts) :
  Dict.wf cs ->
  decodes (7 + length cs) (dumps indent cs) (py_of_contacts cs).
Proof.
  intros Hwf.
  assert (H : Forall (fun it => decodes 6 (snd (fst it)) (snd it))
                (contacts_items indent cs)).
  { unfold contacts_items. apply Forall_forall. intros it Hin.
    apply in_map_iff in Hin as (kc & <- & _). apply decodes_contact. }
  pose proof (decodes_dict indent 0 6 (contacts_items indent cs) H) as D.
  unfold contacts_items in D at 1 2 3. rewrite !map_map, length_map in D.
  cbn [item_text item_pair fst snd] in D.
  unfold dict_of_pairs in D. rewrite (dict_of_pairs_distinct []) in D.
  - exact D.
  - cbn [app]. rewrite map_map. cbn [fst].
    unfold Dict.wf, Dict.keys in Hwf.
    change (NoDup (map (fun x : string * Contact => ustr_of_string (fst x)) cs)).
    rewrite <- (map_map fst ustr_of_string).
    apply NoDup_map_NoDup_ForallPairs; [|exact Hwf].
    intros a b _ _. apply ustr_of_string_inj.
Qed.

Ltac length_append_all :=
  repeat first [rewrite length_append | progress cbn [String.length append]].

Lemma members_text_length (indent level : nat) (its : list item) :
  its <> [] -> 3 * length its <= String.length (members_text indent level its).
Proof.
  induction its as [|it more IH]; [congruence|]. intros _.
  destruct more as [|it2 more].
  - cbn [members_text]. length_append_all. simpl length. lia.
  - specialize (IH ltac:(discriminate)).
    rewrite members_text_cons2. length_append_all.
    simpl length in *. lia.
Qed.

Lemma dumps_length (indent : nat) (cs : Contacts) :
  cs <> [] -> 5 + length cs <= String.length (dumps indent cs).
Proof.
  intros Hne. unfold dumps.
  assert (E : map (fun kc => (fst kc, dumps_contact indent 1 (snd kc))) cs
              = map item_text (contacts_items indent cs)).
  { unfold contacts_items. rewrite map_map. reflexivity. }
  assert (Hi : contacts_items indent cs <> [])
    by (destruct cs; [congruence|discriminate]).
  rewrite E, <- (append_nil_r (encode_dict _ _ _)), encode_dict_text by exact Hi.
  pose proof (members_text_length indent 0 (contacts_items indent cs) Hi) as L.
  unfold contacts_items in L at 1. rewrite length_map in L.
  unfold newline_indent. length_append_all.
  destruct cs; [congruence|]. simpl length in *. lia.
Qed.

Lemma loads_dumps (indent : nat) (cs : Contacts) :
  Dict.wf cs -> loads (dumps indent cs) = Some (py_of_contacts cs).
Proof.
  intros Hwf. destruct cs as [|kc cs]; [reflexivity|].
  destruct (decodes_contacts indent (kc :: cs) Hwf) as [Hws Hdec].
  unfold loads. specialize (Hws ""). specialize (Hdec (fuel_for (dumps indent (kc :: cs))) "").
  rewrite append_nil_r in Hws, Hdec. rewrite Hws, Hdec; [reflexivity|].
  pose proof (dumps_length indent (kc :: cs) ltac:(discriminate)).
  unfold fuel_for. lia.
Qed.

Lemma load_after_save (w : World) :
  Dict.wf (contacts w) ->
  load_contacts (snd (save_contacts w))
  = (py_of_contacts (contacts w), snd (save_contacts w)).
Proof.
  intros Hwf. unfold load_contacts, save_contacts, bind, read_file, get_contacts,
    write_file, print, ret. simpl. now rewrite loads_dumps.
Qed.

(** ** The decoder never runs out of fuel *)

Lemma skip_ws_length (s : string) : String.length (skip_ws s) <= String.length s.
Proof.
  induction s as [|c s IH]; simpl; [lia|]. destruct (is_ws c); simpl; lia.
Qed.

Lemma skip_ws_cons_length (s : string) (c : ascii) (r : string) :
  skip_ws s = String c r -> String.length r < String.length s.
Proof.
  intros H. pose proof (skip_ws_length s) as L. rewrite H in L. simpl in L. lia.
Qed.

Lemma push_some (ch : N) (x : option (ustr * string)) (k : ustr) (r : string) :
  push ch x = Some (k, r) -> exists k', x = Some (k', r).
Proof.
  destruct x as [[k' r']|]; simpl; [|discriminate]. intros [= _ ->]. eauto.
Qed.

Ltac split_match H :=
  repeat match type of H with
         | context [match ?x with _ => _ end] =>
             let E := fresh "E" in destruct x eqn:E; try discriminate
         end.

Lemma scanstring_length_aux (n : nat) :
  forall s k r,
    String.length s <= n -> scanstring s = Some (k, r) ->
    String.length r < String.length s.
Proof.
  induction n as [|n IH]; intros s k r Hlen H.
  - destruct s; [discriminate | simpl in Hlen; lia].
  - destruct s as [|c s]; [discriminate|]. cbn [scanstring] in H.
    split_match H;
      try (injection H as <- <-; cbn [String.length]; lia);
      apply push_some in H as [k' H];
      apply IH in H; subst; cbn [String.length] in *; lia.
Qed.

Lemma scanstring_length (s : string) (k : ustr) (r : string) :
  scanstring s = Some (k, r) -> String.length r < String.length s.
Proof. apply (scanstring_length_aux (String.length s)). lia. Qed.

Lemma strip_prefix_length (p s r : string) :
  strip_prefix p s = Some r ->
  String.length r + String.length p = String.length s.
Proof.
  revert s. induction p as [|a p IH]; intros s H; simpl in H.
  - injection H as <-. simpl. lia.
  - destruct s as [|b s]; [discriminate|].
    destruct (Ascii.eqb a b); [|discriminate].
    apply IH in H. simpl. lia.
Qed.

Lemma span_digits_length (s ds r : string) :
  span_digits s = (ds, r) -> String.length r <= String.length s.
Proof.
  revert ds r. induction s as [|c s IH]; intros ds r H; simpl in H.
  - injection H as <- <-. simpl. lia.
  - destruct (is_decimal c).
    + destruct (span_digits s) as [ds' r'] eqn:E. injection H as <- <-.
      specialize (IH _ _ eq_refl). simpl. lia.
    + injection H as <- <-. simpl. lia.
Qed.

Lemma scan_int_length (s : string) (neg : bool) (ds r : string) :
  scan_int s = Some (neg, ds, r) -> String.length r < String.length s.
Proof.
  unfold scan_int. intros H.
  assert (G : forall s1, String.length s1 <= String.length s ->
    match s1 with
    | "" => None
    | String c r0 =>
        if (N_of_ascii c =? 48)%N then Some (neg, String c "", r0)
        else if is_decimal c
             then let (ds0, rest) := span_digits r0 in Some (neg, String c ds0, rest)
             else None
    end = Some (neg, ds, r) -> String.length r < String.length s).
  { intros s1 L E. destruct s1 as [|c r0]; [discriminate|]. simpl in L.
    destruct (N_of_ascii c =? 48)%N; [injection E as <- <-; lia|].
    destruct (is_decimal c); [|discriminate].
    destruct (span_digits r0) as [ds0 rest] eqn:S. injection E as <- <-.
    apply span_digits_length in S. lia. }
  destruct s as [|c r0]; [discriminate|].
  destruct (N_of_ascii c =? 45)%N.
  - destruct r0 as [|c1 r1]; [discriminate|].
    assert (Hn : neg = true).
    { destruct (N_of_ascii c1 =? 48)%N; [now injection H|].
      destruct (is_decimal c1); [|discriminate].
      destruct (span_digits r1). now injection H. }
    subst neg. apply (G (String c1 r1)); [simpl; lia | exact H].
  - assert (Hn : neg = false).
    { destruct (N_of_ascii c =? 48)%N; [now injection H|].
      destruct (is_decimal c); [|discriminate].
      destruct (span_digits r0). now injection H. }
    subst neg. apply (G (String c r0)); [simpl; lia | exact H].
Qed.

Lemma scan_frac_length (s f r : string) :
  scan_frac s = (f, r) -> String.length r <= String.length s.
Proof.
  unfold scan_frac. intros H. destruct s as [|c s0]; [now injection H as <- <-|].
  destruct (N_of_ascii c =? 46)%N; [|now injection H as <- <-].
  destruct (span_digits s0) as [ds rest] eqn:S. apply span_digits_length in S.
  destruct ds; injection H as <- <-; simpl; lia.
Qed.

Lemma scan_exp_length (s e r : string) :
  scan_exp s = (e, r) -> String.length r <= String.length s.
Proof.
  unfold scan_exp. intros H. destruct s as [|c s0]; [now injection H as <- <-|].
  destruct ((N_of_ascii c =? 101) || (N_of_ascii c =? 69))%N;
    [|now injection H as <- <-].
  assert (G : forall sign r1, String.length r1 <= String.length s0 ->
    (let (ds, rest) := span_digits r1 in
     match ds with
     | "" => ("", String c s0)
     | String _ _ => (String c (sign ++ ds), rest)
     end) = (e, r) -> String.length r <= String.length (String c s0)).
  { intros sign r1 L E. destruct (span_digits r1) as [ds rest] eqn:S.
    apply span_digits_length in S.
    destruct ds; injection E as <- <-; simpl; lia. }
  destruct s0 as [|g r'].
  - apply (G "" ""); [simpl; lia | exact H].
  - destruct ((N_of_ascii g =? 45) || (N_of_ascii g =? 43))%N.
    + apply (G (String g "") r'); [simpl; lia | exact H].
    + apply (G "" (String g r')); [simpl; lia | exact H].
Qed.

Lemma scan_number_length (s : string) (v : value) (r : string) :
  scan_number s = Some (v, r) -> String.length r < String.length s.
Proof.
  unfold scan_number. intros H.
  destruct (scan_int s) as [[[neg ds] r0]|] eqn:I; [|discriminate].
  apply scan_int_length in I.
  destruct (scan_frac r0) as [f r1] eqn:F. apply scan_frac_length in F.
  destruct (scan_exp r1) as [e r2] eqn:X. apply scan_exp_length in X.
  destruct f, e; injection H as <- <-; lia.
Qed.

Lemma scan_constant_length (s : string) (v : value) (r : string) :
  scan_constant s = Some (v, r) -> String.length r < String.length s.
Proof.
  unfold scan_constant. intros H.
  repeat match type of H with
         | context [strip_prefix ?p s] =>
             let E := fresh "E" in
             destruct (strip_prefix p s) eqn:E;
             [apply strip_prefix_length in E; injection H as <- <-; simpl in E; lia|]
         | context [scan_number s] =>
             let E := fresh "E" in
             destruct (scan_number s) as [[? ?]|] eqn:E;
             [apply scan_number_length in E; injection H as <- <-; lia|]
         end.
  discriminate.
Qed.

Lemma answers_invalid (s : string) : answers Invalid s.
Proof. split; [discriminate | intros v r; discriminate]. Qed.

Lemma answers_decoded (v : value) (r s : string) :
  String.length r < String.length s -> answers (Decoded v r) s.
Proof. intros H. split; [discriminate | intros v' r' [= _ <-]; exact H]. Qed.

Lemma answers_shorter (x : result value) (s1 s : string) :
  answers x s1 -> String.length s1 <= String.length s -> answers x s.
Proof.
  intros [H1 H2] L. split; [exact H1|]. intros v r E. specialize (H2 v r E). lia.
Qed.

Lemma fuel_enough (n : nat) :
  (forall s, 2 * String.length s < n -> answers (scan_once n s) s)
  /\ (forall acc s, 2 * String.length s < n -> answers (members n acc s) s)
  /\ (forall items s, 2 * String.length s + 1 < n -> answers (elements n items s) s).
Proof.
  induction n as [|n (IHs & IHm & IHe)]; [repeat split; intros; lia|].
  split; [|split].
  - intros s L. cbn [scan_once]. destruct s as [|c r]; [apply answers_invalid|].
    cbn [String.length] in L.
    destruct (N_of_ascii c =? 34)%N.
    { destruct (scanstring r) as [[str rest]|] eqn:E; [|apply answers_invalid].
      apply scanstring_length in E. apply answers_decoded. simpl. lia. }
    destruct (N_of_ascii c =? 123)%N.
    { destruct (skip_ws r) as [|c1 r1] eqn:E; [apply answers_invalid|].
      apply skip_ws_cons_length in E.
      destruct (N_of_ascii c1 =? 125)%N; [apply answers_decoded; simpl; lia|].
      destruct (N_of_ascii c1 =? 34)%N; [|apply answers_invalid].
      apply (answers_shorter _ r1); [apply IHm; lia | simpl; lia]. }
    destruct (N_of_ascii c =? 91)%N.
    { destruct (skip_ws r) as [|c1 r1] eqn:E; [apply answers_invalid|].
      pose proof (skip_ws_length r) as L1. rewrite E in L1.
      destruct (N_of_ascii c1 =? 93)%N;
        [apply answers_decoded; simpl in *; lia|].
      apply (answers_shorter _ (String c1 r1)); [apply IHe | simpl in *; lia].
      simpl in *. lia. }
    destruct (scan_constant (String c r)) as [[v rest]|] eqn:E;
      [|apply answers_invalid].
    apply scan_constant_length in E. now apply answers_decoded.
  - intros acc s L. cbn [members].
    destruct (scanstring s) as [[key r]|] eqn:E; [|apply answers_invalid].
    apply scanstring_length in E.
    destruct (skip_ws r) as [|c r1] eqn:E1; [apply answers_invalid|].
    apply skip_ws_cons_length in E1.
    destruct (N_of_ascii c =? 58)%N; [|apply answers_invalid].
    pose proof (skip_ws_length r1) as L1.
    destruct (IHs (skip_ws r1) ltac:(lia)) as [Hf Hd].
    destruct (scan_once n (skip_ws r1)) as [v r2| |];
      [|apply answers_invalid|congruence].
    specialize (Hd v r2 eq_refl).
    destruct (skip_ws r2) as [|c2 r3] eqn:E2; [apply answers_invalid|].
    apply skip_ws_cons_length in E2.
    destruct (N_of_ascii c2 =? 125)%N; [apply answers_decoded; lia|].
    destruct (N_of_ascii c2 =? 44)%N; [|apply answers_invalid].
    destruct (skip_ws r3) as [|c3 r4] eqn:E3; [apply answers_invalid|].
    apply skip_ws_cons_length in E3.
    destruct (N_of_ascii c3 =? 34)%N; [|apply answers_invalid].
    apply (answers_shorter _ r4); [apply IHm; lia | lia].
  - intros items s L. cbn [elements].
    destruct (IHs s ltac:(lia)) as [Hf Hd].
    destruct (scan_once n s) as [v r| |]; [|apply answers_invalid|congruence].
    specialize (Hd v r eq_refl).
    destruct (skip_ws r) as [|c r1] eqn:E; [apply answers_invalid|].
    apply skip_ws_cons_length in E.
    destruct (N_of_ascii c =? 93)%N; [apply answers_decoded; lia|].
    destruct (N_of_ascii c =? 44)%N; [|apply answers_invalid].
    pose proof (skip_ws_length r1) as L1.
    apply (answers_shorter _ (skip_ws r1)); [apply IHe; lia | lia].
Qed.

Lemma scan_once_fuel (s : string) :
  scan_once (fuel_for s) (skip_ws s) <> OutOfFuel.
Proof.
  apply (proj1 (fuel_enough (fuel_for s))).
  pose proof (skip_ws_length s). unfold fuel_for. lia.
Qed.

Lemma loads_none (text : string) :
  loads text = None
  <-> scan_once (fuel_for text) (skip_ws text) = Invalid
      \/ exists v rest c r,
           scan_once (fuel_for text) (skip_ws text) = Decoded v rest
           /\ skip_ws rest = String c r.
Proof.
  unfold loads. pose proof (scan_once_fuel text) as F.
  destruct (scan_once (fuel_for text) (skip_ws text)) as [v rest| |];
    [|split; auto|congruence].
  destruct (skip_ws rest) as [|c r] eqn:E; split.
  - discriminate.
  - intros [H|(v' & rest' & c & r & [= <- <-] & H)]; congruence.
  - intros _. right. now exists v, rest, c, r.
  - reflexivity.
Qed.

(** ** Examples of the specification *)

Example validate_phone_ten_digits : validate_phone "(555) 123-4567" = true.
Proof. reflexivity. Qed.

Example validate_phone_seven_digits : validate_phone "555-1234" = false.
Proof. reflexivity. Qed.

Example lookup_ignores_case :
  find_key "CAROL" (Dict.keys (contacts carol_world)) = Some "Carol"
  /\ find_key "Bob" (Dict.keys (contacts carol_world)) = None.
Proof. split; reflexivity. Qed.

Example delete_missing_contact :
  delete_contact "Dave" carol_world
  = (false, printed "Contact 'Dave' not found!" carol_world).
Proof. reflexivity. Qed.

Example search_by_phone :
  fst (search_contact "555" (run_session session empty_world))
  = contacts (run_session session empty_world)
  /\ fst (search_contact "556" (run_session session empty_world)) = [].
Proof. split; reflexivity. Qed.

Example duplicate_names_file_decodes :
  loads duplicate_names_file = Some (py_of_contacts duplicate_names).
Proof. vm_compute. reflexivity. Qed.

(** * The claims *)

(** C1, amended.  For every phone string [p], [validate_phone p] is true
    exactly when at least 10 of the characters left after removing every
    hyphen, space and parenthesis are digits for [str.isdigit]; when [p] is
    made of ASCII characters, these are the decimal digits ['0'..'9'].  As a
    function from strings to booleans it has no effect on the world. *)
Theorem validate_phone_digit_characters (p : string) :
  (validate_phone p = true <-> 10 <= Spec.digit_characters p)
  /\ (Spec.is_ascii p ->
      (validate_phone p = true <-> 10 <= Spec.decimal_digits p)).
Proof.
  assert (E : validate_phone p = true <-> 10 <= Spec.digit_characters p).
  { unfold validate_phone, Spec.digit_characters.
    rewrite sum_ones_filter, clean_phone_spec. apply Nat.leb_le. }
  split; [exact E|].
  intros Hascii. rewrite E. unfold Spec.digit_characters, Spec.decimal_digits.
  replace (filter isdigit (Spec.remove_separators p))
    with (filter is_decimal (Spec.remove_separators p)); [reflexivity|].
  unfold Spec.remove_separators, Spec.is_ascii in *.
  induction Hascii as [|c l Hc _ IH]; simpl; [reflexivity|].
  destruct (negb (Spec.is_separator c)); simpl; [|exact IH].
  rewrite (isdigit_ascii c Hc), IH. reflexivity.
Qed.

(** C1 on the example ["(555) 123-4567"] of the specification. *)
Lemma validate_phone_digit_characters_witness :
  Spec.is_ascii "(555) 123-4567"
  /\ (validate_phone "(555) 123-4567" = true
      <-> 10 <= Spec.decimal_digits "(555) 123-4567").
Proof.
  assert (H : Spec.is_ascii "(555) 123-4567").
  { unfold Spec.is_ascii. simpl. repeat constructor. }
  split; [exact H|].
  exact (proj2 (validate_phone_digit_characters "(555) 123-4567") H).
Defined.

(** C1 as stated fails on ten superscript twos: [validate_phone] accepts
    the string, and none of its characters is a decimal digit. *)
Lemma validate_phone_superscripts :
  ~ (validate_phone superscript_twos = true
     <-> 10 <= Spec.decimal_digits superscript_twos).
Proof.
  intros [H _]. specialize (H eq_refl). vm_compute in H. lia.
Qed.

(** C2.  When the mapping holds a case-insensitive match for [name] and the
    phone number is supplied and invalid, [edit_contact] returns [False]; the
    mapping and the file are as before and the only event is the line about
    the invalid number, so the supplied email and address are not applied. *)
Theorem edit_contact_invalid_phone
    (name : string) (phone_number email address : option string)
    (p : string) (w : World) :
  Spec.has_match name (contacts w) ->
  supplied phone_number = Some p ->
  validate_phone p = false ->
  edit_contact name phone_number email address w
  = (false, printed "Invalid phone number format!" w).
Proof.
  intros Hm Hp Hv. destruct (has_match_find_key _ _ Hm) as [key Hk].
  rewrite edit_contact_cases. now rewrite Hk, Hp, Hv.
Qed.

(** C2 on Carol's contact and the number ["555-1234"]. *)
Lemma edit_contact_invalid_phone_witness :
  Spec.has_match "carol" (contacts carol_world)
  /\ supplied (Some "555-1234") = Some "555-1234"
  /\ validate_phone "555-1234" = false
  /\ edit_contact "carol" (Some "555-1234") (Some "new@example.com")
       (Some "1 Main St") carol_world
     = (false, printed "Invalid phone number format!" carol_world).
Proof.
  assert (H : Spec.has_match "carol" (contacts carol_world)).
  { exists "Carol". split; [left; reflexivity | reflexivity]. }
  split; [exact H|]. split; [reflexivity|]. split; [reflexivity|].
  exact (edit_contact_invalid_phone "carol" (Some "555-1234")
           (Some "new@example.com") (Some "1 Main St") "555-1234" carol_world
           H eq_refl eq_refl).
Defined.

(** C3.  When the mapping holds a case-insensitive match for [name], and in
    particular when a name equal to [name] up to letter case has just been
    added, [add_contact] returns [False]; the mapping and the file are as
    before and the only event is the line that the contact exists. *)
Theorem add_contact_rejects_match
    (now : datetime) (name phone_number email address : string) (w : World) :
  Spec.has_match name (contacts w)
  \/ (exists now1 name1 phone1 email1 address1 w0,
        Spec.ci_equal name1 name
        /\ add_contact now1 name1 phone1 email1 address1 w0 = (true, w)) ->
  add_contact now name phone_number email address w
  = (false, printed ("Contact '" ++ name ++ "' already exists!") w).
Proof.
  intros H.
  assert (Hm : Spec.has_match name (contacts w)).
  { destruct H as [H|(now1 & name1 & phone1 & email1 & address1 & w0 & Hci & Hadd)];
      [exact H|].
    rewrite add_contact_cases in Hadd.
    destruct (list_in _ _) eqn:E; [discriminate|].
    destruct (validate_phone phone1); [|discriminate].
    injection Hadd as <-. cbn [saved contacts].
    exists name1. split; [|exact Hci].
    assert (Hn : ~ In name1 (Dict.keys (contacts w0))).
    { intros Hin. assert (Hm : Spec.has_match name1 (contacts w0))
        by (exists name1; split; [exact Hin | reflexivity]).
      apply exists_check_spec in Hm. congruence. }
    rewrite dict_set_new by exact Hn.
    unfold Dict.keys. rewrite map_app. apply in_or_app. right. now left. }
  apply exists_check_spec in Hm. rewrite add_contact_cases. now rewrite Hm.
Qed.

(** C3 on ["Carol"] followed by ["CAROL"]. *)
Lemma add_contact_rejects_match_witness :
  Spec.ci_equal "Carol" "CAROL"
  /\ add_contact new_year "Carol" "5551234567" "c@example.com" "" empty_world
     = (true, carol_world)
  /\ add_contact next_day "CAROL" "5550000000" "" "" carol_world
     = (false, printed "Contact 'CAROL' already exists!" carol_world).
Proof.
  split; [reflexivity|]. split; [reflexivity|].
  apply (add_contact_rejects_match next_day "CAROL" "5550000000" "" "" carol_world).
  right. exists new_year, "Carol", "5551234567", "c@example.com", "", empty_world.
  split; reflexivity.
Defined.









(** C8.  After a successful [edit_contact], the keys of the mapping are the
    same, in the same order and letter case; every other contact is as
    before; the edited contact keeps its [date_added], takes the supplied
    fields and keeps each field that was not supplied. *)
Theorem edit_contact_frame
    (name : string) (new_phone new_email new_address : option string) (w w' : World) :
  edit_contact name new_phone new_email new_address w = (true, w') ->
  exists key c c',
    find_key name (Dict.keys (contacts w)) = Some key
    /\ Dict.keys (contacts w') = Dict.keys (contacts w)
    /\ (forall k, k <> key -> Dict.get k (contacts w') = Dict.get k (contacts w))
    /\ Dict.get key (contacts w) = Some c
    /\ Dict.get key (contacts w') = Some c'
    /\ date_added c' = date_added c
    /\ phone c' = match supplied new_phone with Some v => v | None => phone c end
    /\ email c' = match supplied new_email with Some v => v | None => email c end
    /\ address c' = match supplied new_address with Some v => v | None => address c end.
Proof.
  intros H. rewrite edit_contact_cases in H.
  destruct (find_key name (Dict.keys (contacts w))) as [key|] eqn:Hk; [|discriminate].
  destruct (dict_get_in_keys key (contacts w)) as [c Hc];
    [exact (proj1 (find_key_some _ _ _ Hk))|].
  assert (E : w' = saved (edited key new_phone new_email new_address (contacts w))
                     ["Contact '" ++ key ++ "' updated successfully!"] w).
  { destruct (supplied new_phone) as [p|];
      [destruct (validate_phone p); [|discriminate]|]; now injection H as <-. }
  subst w'. cbn [saved contacts].
  eexists key, c, _. rewrite edited_keys, edited_get, Hc. cbn [option_map].
  repeat split; try reflexivity.
  intros k Hne. now apply edited_get_other.
Qed.

(** C8 on Carol's contact, with only a new email supplied. *)
Lemma edit_contact_frame_witness :
  edit_contact "carol" None (Some "new@example.com") None carol_world
  = (true, carol_edited)
  /\ exists c',
       Dict.get "Carol" (contacts carol_edited) = Some c'
       /\ date_added c' = strftime new_year
       /\ phone c' = "5551234567"
       /\ email c' = "new@example.com"
       /\ address c' = "".
Proof.
  split; [reflexivity|].
  destruct (edit_contact_frame "carol" None (Some "new@example.com") None
              carol_world carol_edited eq_refl)
    as (key & c & c' & Hk & _ & _ & Hc & Hc' & Hd & Hp & He & Ha).
  injection Hk as <-. injection Hc as <-.
  exists c'. repeat split; assumption.
Defined.



(** C10.  [search_contact] with the empty query returns every item of the
    mapping, in the order of the mapping, and changes nothing. *)
Theorem search_empty_query (w : World) :
  search_contact "" w = (contacts w, w).
Proof.
  unfold search_contact, bind, get_contacts, ret.
  rewrite (search_loop_filter
             (fun item => search_match "" (fst item) (snd item))).
  rewrite filter_all; [reflexivity|].
  intros item. unfold search_match. simpl lower at 1. now rewrite str_in_empty.
Qed.

(** * Further properties of the code *)

(** ** More about lookups and dictionaries *)

Lemma find_key_match (name : string) (cs : Contacts) :
  (exists key, find_key name (Dict.keys cs) = Some key) <-> Spec.has_match name cs.
Proof.
  split.
  - intros [key H]. apply find_key_some in H as [Hin E]. now exists key.
  - apply has_match_find_key.
Qed.

Lemma find_key_no_match (name : string) (cs : Contacts) :
  find_key name (Dict.keys cs) = None <-> ~ Spec.has_match name cs.
Proof.
  rewrite find_key_none. split.
  - intros H (key & Hin & E). exact (H key Hin E).
  - intros H key Hin E. apply H. now exists key.
Qed.

Lemma find_key_unique (name key : string) (keys : list string) :
  NoDup (map lower keys) -> In key keys -> lower key = lower name ->
  find_key name keys = Some key.
Proof.
  induction keys as [|k keys IH]; simpl; intros Hnd Hin E; [contradiction|].
  inversion Hnd as [|? ? Hnin Hnd']; subst.
  destruct (String.eqb_spec (lower k) (lower name)) as [Ek|Ek].
  - destruct Hin as [->|Hin]; [reflexivity|].
    exfalso. apply Hnin. rewrite Ek, <- E. now apply in_map.
  - destruct Hin as [->|Hin]; [congruence|]. now apply IH.
Qed.

Lemma find_key_snoc (name name' : string) (keys : list string) :
  (forall key, In key keys -> lower key <> lower name) ->
  lower name' = lower name ->
  find_key name (keys ++ [name'])%list = Some name'.
Proof.
  intros Hno E. induction keys as [|k keys IH]; simpl.
  - now rewrite E, String.eqb_refl.
  - destruct (String.eqb_spec (lower k) (lower name)) as [Ek|Ek].
    + exfalso. apply (Hno k); [now left | exact Ek].
    + apply IH. intros key Hin. apply Hno. now right.
Qed.

Section MoreDictFacts.

Context {V : Type}.
Implicit Types (d : list (string * V)) (k : string).

Lemma dict_del_snoc k (v : V) d :
  ~ In k (Dict.keys d) -> Dict.del k (d ++ [(k, v)])%list = d.
Proof.
  induction d as [|[k' v'] d IH]; simpl; intros H.
  - now rewrite String.eqb_refl.
  - destruct (String.eqb_spec k' k) as [E|E]; [tauto|]. rewrite IH; tauto.
Qed.

Lemma dict_del_absent k d : ~ In k (Dict.keys d) -> Dict.del k d = d.
Proof.
  induction d as [|[k' v'] d IH]; simpl; intros H; [reflexivity|].
  destruct (String.eqb_spec k' k) as [E|E]; [tauto|]. rewrite IH; tauto.
Qed.

Lemma dict_del_not_in k d : NoDup (Dict.keys d) -> ~ In k (Dict.keys (Dict.del k d)).
Proof.
  induction d as [|[k' v'] d IH]; simpl; intros H; [tauto|].
  inversion H as [|? ? Hnin Hnd]; subst.
  destruct (String.eqb_spec k' k) as [E|E]; [now subst|].
  simpl. intros [E'|Hin]; [contradiction | now apply IH].
Qed.

Lemma dict_get_del_other k k0 d :
  k0 <> k -> Dict.get k0 (Dict.del k d) = Dict.get k0 d.
Proof.
  intros Hne. induction d as [|[k' v'] d IH]; simpl; [reflexivity|].
  destruct (String.eqb_spec k' k) as [E|E]; simpl.
  - subst k'. destruct (String.eqb_spec k k0); [congruence | reflexivity].
  - now rewrite IH.
Qed.

Lemma dict_del_split k d :
  In k (Dict.keys d) ->
  exists d1 v d2,
    d = (d1 ++ (k, v) :: d2)%list /\ Dict.del k d = (d1 ++ d2)%list
    /\ ~ In k (Dict.keys d1).
Proof.
  induction d as [|[k' v'] d IH]; simpl; [intros []|]. intros H.
  destruct (String.eqb_spec k' k) as [E|E].
  - subst k'. exists [], v', d. simpl. tauto.
  - destruct H as [H|H]; [contradiction|].
    destruct (IH H) as (d1 & v & d2 & -> & Hd & Hn).
    exists ((k', v') :: d1), v, d2. simpl. rewrite Hd.
    repeat split; try reflexivity. intros [E'|Hin]; [contradiction | tauto].
Qed.

Lemma dict_set_keys_wf k (v : V) d : Dict.wf d -> Dict.wf (Dict.set k v d).
Proof.
  unfold Dict.wf. intros H.
  destruct (in_dec string_dec k (Dict.keys d)) as [Hin|Hnin].
  - replace (Dict.keys (Dict.set k v d)) with (Dict.keys d); [exact H|].
    clear H. induction d as [|[k' v'] d IH]; simpl in *; [contradiction|].
    destruct (String.eqb_spec k' k) as [E|E]; [reflexivity|].
    simpl. f_equal. apply IH. destruct Hin; [contradiction | assumption].
  - rewrite dict_set_new by exact Hnin. unfold Dict.keys. rewrite map_app.
    now apply nodup_snoc.
Qed.

Lemma dict_modify_ext (f g : V -> V) k d :
  (forall v, f v = g v) -> Dict.modify k f d = Dict.modify k g d.
Proof.
  intros H. induction d as [|[k' v'] d IH]; simpl; [reflexivity|].
  destruct (String.eqb k' k); [now rewrite H | now rewrite IH].
Qed.

Lemma dict_modify_modify (f g : V -> V) k d :
  Dict.modify k f (Dict.modify k g d) = Dict.modify k (fun v => f (g v)) d.
Proof.
  induction d as [|[k' v'] d IH]; simpl; [reflexivity|].
  destruct (String.eqb k' k) eqn:E; simpl; rewrite E; [reflexivity | now rewrite IH].
Qed.

Lemma dict_modify_id k d : Dict.modify k (fun v => v) d = d.
Proof.
  induction d as [|[k' v'] d IH]; simpl; [reflexivity|].
  destruct (String.eqb k' k); [reflexivity | now rewrite IH].
Qed.

Lemma dict_modify_in k (f : V -> V) d k0 v0 :
  In (k0, v0) (Dict.modify k f d) ->
  exists v, In (k0, v) d /\ (v0 = v \/ (k0 = k /\ v0 = f v)).
Proof.
  induction d as [|[k' v'] d IH]; simpl; [intros []|].
  destruct (String.eqb_spec k' k) as [E|E]; simpl.
  - intros [[= <- <-]|H]; [exists v'; auto | exists v0; auto].
  - intros [[= <- <-]|H]; [exists v'; auto|].
    destruct (IH H) as (v & Hin & Hv). exists v. auto.
Qed.

Lemma dict_del_in k d k0 v0 : In (k0, v0) (Dict.del k d) -> In (k0, v0) d.
Proof.
  induction d as [|[k' v'] d IH]; simpl; [auto|].
  destruct (String.eqb k' k); simpl; tauto.
Qed.

End MoreDictFacts.

Lemma edited_as_modify (key : string) (ph e a : option string) (cs : Contacts) :
  edited key ph e a cs
  = Dict.modify key
      (fun c =>
         mkContact
           (match supplied ph with Some v => v | None => phone c end)
           (match supplied e with Some v => v | None => email c end)
           (match supplied a with Some v => v | None => address c end)
           (date_added c))
      cs.
Proof.
  unfold edited.
  destruct (supplied ph), (supplied e), (supplied a);
    rewrite ?dict_modify_modify;
    try (apply dict_modify_ext; intros [? ? ? ?]; reflexivity).
  symmetry. rewrite <- (dict_modify_id key cs) at 2.
  apply dict_modify_ext. intros [? ? ? ?]. reflexivity.
Qed.

(** ** Name resolution *)

(** X1.  The loop [for key in self.contacts: if key.lower() == name.lower(): ... break]
    of [edit_contact], [delete_contact] and [display_contact] stops at the
    first key, in the order of the mapping, that equals the name up to letter
    case: a matching key after keys that do not match is the one found. *)
Theorem find_key_first_match (name key : string) (before after : list string) :
  Spec.ci_equal key name ->
  (forall k, In k before -> ~ Spec.ci_equal k name) ->
  find_key name (before ++ key :: after)%list = Some key.
Proof.
  unfold Spec.ci_equal. intros E Hno.
  induction before as [|k before IH]; simpl.
  - now rewrite E, String.eqb_refl.
  - destruct (String.eqb_spec (lower k) (lower name)) as [Ek|Ek].
    + exfalso. apply (Hno k); [now left | exact Ek].
    + apply IH. intros k' Hin. apply Hno. now right.
Qed.

(** X2.  In a mapping whose keys differ beyond letter case, every spelling of a
    stored key resolves to that key itself. *)
Theorem find_key_resolves (name key : string) (cs : Contacts) :
  Spec.ci_unique cs ->
  In key (Dict.keys cs) ->
  Spec.ci_equal name key ->
  find_key name (Dict.keys cs) = Some key.
Proof.
  intros Hu Hin E. apply find_key_unique; [exact Hu | exact Hin | now symmetry].
Qed.

(** ** [add_contact] and [edit_contact] *)

(** X3.  [add_contact] returns [True] exactly when no key equals the name up to
    letter case and the phone number passes [validate_phone].  When it
    returns [False] it has printed one line and done nothing else: the
    mapping and the file are as before.  A new name with a bad phone number is
    answered with [Invalid phone number format!]. *)
Theorem add_contact_outcomes
    (now : datetime) (name phone_number email address : string) (w : World) :
  let r := add_contact now name phone_number email address w in
  (fst r = true
   <-> ~ Spec.has_match name (contacts w) /\ validate_phone phone_number = true)
  /\ (fst r = false -> exists line, snd r = printed line w)
  /\ (~ Spec.has_match name (contacts w) ->
      validate_phone phone_number = false ->
      r = (false, printed "Invalid phone number format!" w)).
Proof.
  cbv zeta. rewrite add_contact_cases.
  destruct (list_in _ _) eqn:E.
  - apply exists_check_spec in E. split; [|split].
    + split; [discriminate | tauto].
    + intros _. eexists. reflexivity.
    + tauto.
  - assert (Hn : ~ Spec.has_match name (contacts w)).
    { intros H. apply exists_check_spec in H. congruence. }
    destruct (validate_phone phone_number); (split; [|split]).
    + split; [auto | reflexivity].
    + discriminate.
    + discriminate.
    + split; [discriminate | intros [_ H]; discriminate].
    + intros _. eexists. reflexivity.
    + reflexivity.
Qed.

(** X4.  [edit_contact] returns [True] exactly when a key equals the name up to
    letter case and the phone number, if one is supplied (neither [None] nor
    empty), passes [validate_phone].  When it returns [False] it has printed
    one line and done nothing else; an unknown name is answered with
    [Contact '<name>' not found!]. *)
Theorem edit_contact_outcomes
    (name : string) (new_phone new_email new_address : option string) (w : World) :
  let r := edit_contact name new_phone new_email new_address w in
  (fst r = true
   <-> Spec.has_match name (contacts w)
       /\ (forall p, supplied new_phone = Some p -> validate_phone p = true))
  /\ (fst r = false -> exists line, snd r = printed line w)
  /\ (~ Spec.has_match name (contacts w) ->
      r = (false, printed ("Contact '" ++ name ++ "' not found!") w)).
Proof.
  cbv zeta. rewrite edit_contact_cases.
  destruct (find_key name (Dict.keys (contacts w))) as [key|] eqn:Hk.
  - assert (Hm : Spec.has_match name (contacts w))
      by (apply find_key_match; eauto).
    destruct (supplied new_phone) as [p|]; [destruct (validate_phone p) eqn:Hv|];
      (split; [|split]); try tauto; try discriminate;
      try (intros _; eexists; reflexivity).
    + split; [intros _; split; [exact Hm | intros q [= <-]; exact Hv] | reflexivity].
    + split; [discriminate|]. intros [_ H]. specialize (H p eq_refl). congruence.
    + split; [intros _; split; [exact Hm | discriminate] | reflexivity].
  - apply find_key_no_match in Hk. split; [|split].
    + split; [discriminate | tauto].
    + intros _. eexists. reflexivity.
    + reflexivity.
Qed.

Lemma edited_wf (key : string) (ph e a : option string) (cs : Contacts) :
  Dict.wf cs -> Dict.wf (edited key ph e a cs).
Proof. unfold Dict.wf. now rewrite edited_keys. Qed.

Lemma load_saved (cs : Contacts) (lines : list string) (w : World) :
  Dict.wf cs ->
  load_contacts (saved cs lines w) = (py_of_contacts cs, saved cs lines w).
Proof.
  intros Hwf. unfold load_contacts, bind, read_file, ret. simpl.
  now rewrite loads_dumps.
Qed.



(** X7.  A successful edit, made a second time with the same arguments, succeeds
    again and leaves the mapping and the file as the first one did. *)
Theorem edit_contact_twice
    (name : string) (new_phone new_email new_address : option string) (w w1 : World) :
  edit_contact name new_phone new_email new_address w = (true, w1) ->
  exists w2,
    edit_contact name new_phone new_email new_address w1 = (true, w2)
    /\ contacts w2 = contacts w1
    /\ disk w2 = disk w1.
Proof.
  intros H. rewrite edit_contact_cases in H.
  destruct (find_key name (Dict.keys (contacts w))) as [key|] eqn:Hk; [|discriminate].
  assert (Ew : w1 = saved (edited key new_phone new_email new_address (contacts w))
                      ["Contact '" ++ key ++ "' updated successfully!"] w
               /\ (forall p, supplied new_phone = Some p -> validate_phone p = true)).
  { destruct (supplied new_phone) as [p|];
      [destruct (validate_phone p) eqn:Hv; [|discriminate]|];
      injection H as <-; split; try reflexivity; congruence. }
  destruct Ew as [-> Hv].
  assert (Ee : edited key new_phone new_email new_address
                 (edited key new_phone new_email new_address (contacts w))
               = edited key new_phone new_email new_address (contacts w)).
  { rewrite !edited_as_modify, dict_modify_modify. apply dict_modify_ext.
    intros c. simpl.
    destruct (supplied new_phone), (supplied new_email), (supplied new_address);
      reflexivity. }
  eexists. rewrite edit_contact_cases. cbn [saved contacts].
  rewrite edited_keys, Hk.
  destruct (supplied new_phone) as [p|]; [rewrite (Hv p eq_refl)|];
    (split; [reflexivity|]); cbn [saved contacts disk]; now rewrite Ee.
Qed.

(** ** [delete_contact] *)

(** X8.  [delete_contact] of a name that no key equals up to letter case returns
    [False], prints [Contact '<name>' not found!] and touches neither the
    mapping nor the file. *)
Theorem delete_contact_missing (name : string) (w : World) :
  ~ Spec.has_match name (contacts w) ->
  delete_contact name w
  = (false, printed ("Contact '" ++ name ++ "' not found!") w).
Proof.
  intros H. apply find_key_no_match in H.
  rewrite delete_contact_cases. now rewrite H.
Qed.

Lemma find_key_split (name key : string) (keys : list string) :
  find_key name keys = Some key ->
  exists before after,
    keys = (before ++ key :: after)%list
    /\ forall k, In k before -> lower k <> lower name.
Proof.
  induction keys as [|k keys IH]; simpl; [discriminate|].
  destruct (String.eqb_spec (lower k) (lower name)) as [E|E].
  - intros [= <-]. exists [], keys. split; [reflexivity | intros ? []].
  - intros H. destruct (IH H) as (before & after & -> & Hno).
    exists (k :: before), after. split; [reflexivity|].
    intros k' [<-|Hin]; auto.
Qed.

Lemma dict_del_first {V} (key : string) (v : V) (d1 d2 : list (string * V)) :
  ~ In key (Dict.keys d1) ->
  Dict.del key (d1 ++ (key, v) :: d2)%list = (d1 ++ d2)%list.
Proof.
  induction d1 as [|[k' v'] d1 IH]; simpl; intros H.
  - now rewrite String.eqb_refl.
  - destruct (String.eqb_spec k' key) as [E|E]; [tauto|]. rewrite IH; tauto.
Qed.

(** X9.  [delete_contact] of a name that has a match removes the first
    matching entry and no other, keeps the order of the rest, saves, and
    reports the key as stored.  When the keys differ beyond letter case the
    name has no match afterwards. *)
Theorem delete_contact_removes (name : string) (w : World) :
  Spec.has_match name (contacts w) ->
  exists key details before after,
    contacts w = (before ++ (key, details) :: after)%list
    /\ Spec.ci_equal key name
    /\ ~ Spec.has_match name before
    /\ delete_contact name w
       = (true, saved (before ++ after)%list
                  ["Contact '" ++ key ++ "' deleted successfully!"] w)
    /\ (Spec.ci_unique (contacts w) -> ~ Spec.has_match name (before ++ after)%list).
Proof.
  intros Hm. destruct (has_match_find_key _ _ Hm) as [key Hk].
  destruct (find_key_some _ _ _ Hk) as [Hin E].
  destruct (find_key_split _ _ _ Hk) as (kb & ka & Hkeys & Hno).
  unfold Dict.keys in Hkeys. apply map_eq_app in Hkeys as (before & rest & Hcs & Hb & Hr).
  destruct rest as [|[k details] after]; [discriminate|].
  simpl in Hr. injection Hr as -> Ha. subst kb.
  assert (Hnm : ~ Spec.has_match name before).
  { intros (k & Hk1 & Hk2). exact (Hno k Hk1 Hk2). }
  assert (Hnk : ~ In key (Dict.keys before)).
  { intros Hk1. apply Hnm. now exists key. }
  exists key, details, before, after. split; [exact Hcs|]. split; [exact E|].
  split; [exact Hnm|]. split.
  - rewrite delete_contact_cases, Hk, Hcs. now rewrite dict_del_first.
  - unfold Spec.ci_unique. rewrite Hcs. unfold Dict.keys.
    rewrite !map_app. simpl. intros Hu (k & Hk1 & Hk2).
    apply NoDup_remove_2 in Hu. apply Hu.
    unfold Spec.ci_equal in *. rewrite E, <- Hk2, <- map_app. apply in_map.
    unfold Dict.keys in Hk1. now rewrite map_app in Hk1.
Qed.

(** X10.  A contact that [add_contact] has just added is deleted by
    [delete_contact] under any spelling of its name, and the mapping is then
    what it was before the addition. *)
Theorem add_then_delete
    (now : datetime) (name name' phone_number email address : string) (w : World) :
  ~ Spec.has_match name (contacts w) ->
  validate_phone phone_number = true ->
  Spec.ci_equal name' name ->
  let w1 := snd (add_contact now name phone_number email address w) in
  fst (delete_contact name' w1) = true
  /\ contacts (snd (delete_contact name' w1)) = contacts w.
Proof.
  intros Hn Hv E w1. unfold w1. rewrite add_contact_cases.
  destruct (list_in _ _) eqn:El; [apply exists_check_spec in El; contradiction|].
  rewrite Hv. cbn [snd]. rewrite delete_contact_cases. cbn [saved contacts].
  assert (Hnin : ~ In name (Dict.keys (contacts w))) by now apply no_match_not_in.
  rewrite dict_set_new by exact Hnin.
  assert (Hk : find_key name' (Dict.keys (contacts w ++ [(name, mkContact phone_number
                 email address (strftime now))])%list) = Some name).
  { unfold Dict.keys. rewrite map_app. simpl. apply find_key_snoc.
    - intros key Hin Ek. apply Hn. exists key. split; [exact Hin|].
      unfold Spec.ci_equal in *. congruence.
    - unfold Spec.ci_equal in E. congruence. }
  rewrite Hk. cbn [fst snd saved contacts]. split; [reflexivity|].
  now apply dict_del_snoc.
Qed.

(** ** [display_contact] and [list_all_contacts] *)

Lemma dict_get_in {V} (k : string) (v : V) (d : list (string * V)) :
  Dict.get k d = Some v -> In (k, v) d.
Proof.
  induction d as [|[k' v'] d IH]; simpl; [discriminate|].
  destruct (String.eqb_spec k' k) as [E|E].
  - intros [= <-]. left. now subst.
  - intros H. right. now apply IH.
Qed.

(** X11.  [display_contact] changes neither the mapping nor the file.  For a name
    without a match it prints [Contact '<name>' not found!] and returns
    [False]; otherwise it returns [True] and prints the seven lines of the
    card of the first matching entry, under the name as stored. *)
Theorem display_contact_shows (name : string) (w : World) :
  (~ Spec.has_match name (contacts w) ->
   display_contact name w
   = (false, printed ("Contact '" ++ name ++ "' not found!") w))
  /\ (Spec.has_match name (contacts w) ->
      exists key details,
        In (key, details) (contacts w)
        /\ Spec.ci_equal key name
        /\ find_key name (Dict.keys (contacts w)) = Some key
        /\ display_contact name w
           = (true, mkWorld (contacts w) (disk w)
                      (trace w ++ map Printed (contact_card key details))%list)).
Proof.
  split.
  - intros H. apply find_key_no_match in H.
    unfold display_contact, bind, get_contacts. now rewrite H.
  - intros Hm. destruct (has_match_find_key _ _ Hm) as [key Hk].
    destruct (find_key_some _ _ _ Hk) as [Hin E].
    destruct (dict_get_in_keys key (contacts w) Hin) as [details Hd].
    exists key, details. split; [now apply dict_get_in|]. split; [exact E|].
    split; [exact Hk|].
    unfold display_contact, bind, get_contacts, print, ret. rewrite Hk, Hd.
    simpl. now rewrite <- !app_assoc.
Qed.

Lemma print_rows_lines (cs : Contacts) (w : World) :
  print_rows cs w
  = (tt, mkWorld (contacts w) (disk w) (trace w ++ map Printed (map table_row cs))%list).
Proof.
  revert w. induction cs as [|[name details] cs IH]; intros w; simpl.
  - unfold ret. rewrite app_nil_r. now destruct w.
  - unfold bind, print. rewrite IH. simpl. now rewrite <- app_assoc.
Qed.

Lemma list_all_contacts_lines (w : World) :
  list_all_contacts w
  = (tt, mkWorld (contacts w) (disk w)
           (trace w ++ map Printed (table (contacts w)))%list).
Proof.
  destruct w as [cs d t]. unfold list_all_contacts, bind, get_contacts, table.
  cbn [fst snd contacts disk trace].
  destruct cs as [|item cs]; [reflexivity|].
  unfold print at 1 2 3. cbn [fst snd contacts disk trace].
  rewrite print_rows_lines. unfold print. cbn [contacts disk trace].
  rewrite <- !app_assoc. cbn [map app]. now rewrite map_app.
Qed.

(** X12.  [list_all_contacts] changes neither the mapping nor the file.  It
    prints [No contacts found!] for the empty mapping, and otherwise three
    lines of heading, one row per contact in the order of the mapping, and a
    closing rule. *)
Theorem list_all_contacts_table (w : World) :
  list_all_contacts w
  = (tt, mkWorld (contacts w) (disk w)
           (trace w ++ map Printed (table (contacts w)))%list)
  /\ length (table (contacts w))
     = match contacts w with [] => 1 | _ => 4 + length (contacts w) end.
Proof.
  split; [apply list_all_contacts_lines|].
  unfold table. destruct (contacts w) as [|item cs]; [reflexivity|].
  cbn [length]. rewrite length_app, length_map. simpl. lia.
Qed.

Lemma times_length (c : ascii) (n : nat) : String.length (times c n) = n.
Proof. induction n as [|n IH]; simpl; [reflexivity | now rewrite IH]. Qed.

Lemma ljust_length (w : nat) (s : string) :
  String.length (ljust w s) = Nat.max w (String.length s).
Proof. unfold ljust. rewrite length_append, times_length. lia. Qed.

Lemma prefix_append (a b : string) : prefix a (a ++ b) = true.
Proof. apply prefix_spec. now exists b. Qed.

(** X13.  A row of the table is never cut: each column is padded to its width
    (20, 15 and 25) but a longer value is printed whole and pushes the row
    wider; the row starts with the name. *)
Theorem table_row_width (name : string) (details : Contact) :
  String.length (table_row (name, details))
  = Nat.max 20 (String.length name) + 1
    + Nat.max 15 (String.length (phone details)) + 1
    + Nat.max 25 (String.length (email details))
  /\ prefix name (table_row (name, details)) = true.
Proof.
  unfold table_row. cbn [fst snd]. split.
  - rewrite !length_append, !ljust_length. simpl. lia.
  - unfold ljust at 1. rewrite append_assoc. apply prefix_append.
Qed.

(** ** Invariants of a session *)

Lemma run_call_store (k : call) (w : World) :
  store_of (run_call k w) = store_of w \/ in_sync (run_call k w).
Proof.
  destruct k as [now name phone_number new_email new_address
                | name phone_number new_email new_address | query | name | name | ]; cbn [run_call].
  - rewrite add_contact_cases. destruct (list_in _ _); [now left|].
    destruct (validate_phone _); [now right | now left].
  - rewrite edit_contact_cases. destruct (find_key _ _); [|now left].
    destruct (supplied phone_number) as [p|];
      [destruct (validate_phone p)|]; (now right) || (now left).
  - left. unfold search_contact, bind, get_contacts, ret. reflexivity.
  - rewrite delete_contact_cases. destruct (find_key _ _); [now right | now left].
  - left. unfold display_contact, bind, get_contacts.
    destruct (find_key _ _) as [key|]; [|reflexivity].
    destruct (Dict.get key (contacts w)); reflexivity.
  - left. unfold store_of. rewrite list_all_contacts_lines. reflexivity.
Qed.

Lemma run_call_wf (k : call) (w : World) :
  Dict.wf (contacts w) -> Dict.wf (contacts (run_call k w)).
Proof.
  intros H. destruct k as [now name phone_number new_email new_address
                | name phone_number new_email new_address | query | name | name | ]; cbn [run_call].
  - rewrite add_contact_cases. destruct (list_in _ _); [exact H|].
    destruct (validate_phone _); [|exact H]. cbn [snd saved contacts].
    now apply dict_set_keys_wf.
  - rewrite edit_contact_cases. destruct (find_key _ _); [|exact H].
    destruct (supplied phone_number) as [p|];
      [destruct (validate_phone p); [|exact H]|];
      cbn [snd saved contacts]; now apply edited_wf.
  - now rewrite keeps_search_contact.
  - rewrite delete_contact_cases. destruct (find_key _ _); [|exact H].
    cbn [snd saved contacts]. unfold Dict.wf in *.
    rewrite <- (map_id (Dict.keys _)). apply dict_del_nodup.
    now rewrite map_id.
  - now rewrite keeps_display_contact.
  - now rewrite keeps_list_all_contacts.
Qed.

Lemma run_call_in_sync (k : call) (w : World) :
  in_sync w -> in_sync (run_call k w).
Proof.
  intros H. destruct (run_call_store k w) as [E|E]; [|exact E].
  unfold store_of in E. injection E as Ec Ed. unfold in_sync. now rewrite Ec, Ed.
Qed.


(** X15.  No method changes the mapping in memory without saving it: a call that
    leaves another mapping has written its dump to the file, before anything
    it printed. *)
Theorem mutation_is_saved (k : call) (w : World) :
  contacts (run_call k w) <> contacts w ->
  in_sync (run_call k w)
  /\ exists events,
       trace (run_call k w)
       = (trace w ++ Written (dumps 4 (contacts (run_call k w))) :: events)%list.
Proof.
  intros Hne. destruct k as [now name phone_number new_email new_address
                | name phone_number new_email new_address | query | name | name | ]; cbn [run_call] in *.
  - rewrite add_contact_cases in *. destruct (list_in _ _); [contradiction|].
    destruct (validate_phone _); [|contradiction].
    split; [reflexivity | eexists; reflexivity].
  - rewrite edit_contact_cases in *. destruct (find_key _ _); [|contradiction].
    destruct (supplied phone_number) as [p|];
      [destruct (validate_phone p); [|contradiction]|];
      (split; [reflexivity | eexists; reflexivity]).
  - rewrite keeps_search_contact in Hne. contradiction.
  - rewrite delete_contact_cases in *. destruct (find_key _ _); [|contradiction].
    split; [reflexivity | eexists; reflexivity].
  - rewrite keeps_display_contact in Hne. contradiction.
  - rewrite keeps_list_all_contacts in Hne. contradiction.
Qed.

Lemma run_call_phones_valid (k : call) (w : World) :
  phones_valid (contacts w) -> phones_valid (contacts (run_call k w)).
Proof.
  unfold phones_valid. intros H. destruct k as [now name phone_number new_email new_address
                | name phone_number new_email new_address | query | name | name | ]; cbn [run_call].
  - rewrite add_contact_cases. destruct (list_in _ _) eqn:E; [exact H|].
    destruct (validate_phone phone_number) eqn:Hv; [|exact H].
    cbn [snd saved contacts].
    assert (Hn : ~ Spec.has_match name (contacts w)).
    { intros Hm. apply exists_check_spec in Hm. congruence. }
    rewrite dict_set_new by now apply no_match_not_in.
    apply Forall_app. split; [exact H|]. constructor; [exact Hv | constructor].
  - rewrite edit_contact_cases. destruct (find_key _ _) as [key|]; [|exact H].
    assert (G : (forall p, supplied phone_number = Some p -> validate_phone p = true) ->
      Forall (fun kc => validate_phone (phone (snd kc)) = true)
        (edited key phone_number new_email new_address (contacts w))).
    { intros Hv. rewrite edited_as_modify. apply Forall_forall.
      intros [k0 c0] Hin. apply dict_modify_in in Hin as (c & Hin & Hc).
      rewrite Forall_forall in H. specialize (H _ Hin). cbn [snd] in *.
      destruct Hc as [->|[_ ->]]; [exact H|]. cbn [phone].
      destruct (supplied phone_number) as [p|]; [now apply Hv | exact H]. }
    destruct (supplied phone_number) as [p|];
      [destruct (validate_phone p) eqn:Hv; [|exact H]|];
      cbn [snd saved contacts]; apply G; congruence.
  - now rewrite keeps_search_contact.
  - rewrite delete_contact_cases. destruct (find_key _ _) as [key|]; [|exact H].
    cbn [snd saved contacts]. apply Forall_forall. intros [k0 c0] Hin.
    apply dict_del_in in Hin. rewrite Forall_forall in H. now apply H.
  - now rewrite keeps_display_contact.
  - now rewrite keeps_list_all_contacts.
Qed.

Lemma run_session_phones_valid (calls : list call) (w : World) :
  phones_valid (contacts w) -> phones_valid (contacts (run_session calls w)).
Proof.
  revert w. induction calls as [|k calls IH]; intros w H; simpl; [exact H|].
  apply IH. now apply run_call_phones_valid.
Qed.

Lemma run_session_in_sync (calls : list call) (w : World) :
  in_sync w -> in_sync (run_session calls w).
Proof.
  revert w. induction calls as [|k calls IH]; intros w H; simpl; [exact H|].
  apply IH. now apply run_call_in_sync.
Qed.

(** X16.  If every stored phone number passes [validate_phone], so does every
    stored phone number after any sequence of method calls. *)
Theorem session_keeps_phones_valid (calls : list call) (w : World) :
  phones_valid (contacts w) -> phones_valid (contacts (run_session calls w)).
Proof.
  revert w. induction calls as [|k calls IH]; intros w H.
  - exact H.
  - change (phones_valid (contacts (run_session calls (run_call k w)))).
    apply IH. now apply run_call_phones_valid.
Qed.

(** ** [search_contact] on two queries *)

Lemma substring_of_trans (a b c : string) :
  Spec.substring_of a b -> Spec.substring_of b c -> Spec.substring_of a c.
Proof.
  intros (p1 & q1 & ->) (p2 & q2 & ->). exists (p2 ++ p1), (q1 ++ q2).
  now rewrite !append_assoc.
Qed.

Lemma substring_of_lower (a b : string) :
  Spec.substring_of a b -> Spec.substring_of (lower a) (lower b).
Proof.
  intros (p & q & ->). exists (lower p), (lower q). now rewrite !lower_append.
Qed.

Lemma str_in_narrower (a b s : string) :
  Spec.substring_of a b -> str_in b s = true -> str_in a s = true.
Proof.
  rewrite !str_in_spec. apply substring_of_trans.
Qed.


(** ** [validate_phone] counts digits and nothing else *)

Lemma list_of_append (a b : string) :
  list_ascii_of_string (a ++ b)
  = (list_ascii_of_string a ++ list_ascii_of_string b)%list.
Proof. induction a as [|c a IH]; simpl; [reflexivity | now rewrite IH]. Qed.

Lemma separator_not_digit (c : ascii) :
  Spec.is_separator c = true -> isdigit c = false.
Proof.
  unfold Spec.is_separator. rewrite !orb_true_iff.
  intros [[[H|H]|H]|H]; apply Ascii.eqb_eq in H; subst; reflexivity.
Qed.

Lemma digits_of_clean (p : string) :
  filter isdigit (Spec.remove_separators p)
  = filter isdigit (list_ascii_of_string p).
Proof.
  unfold Spec.remove_separators. rewrite filter_twice. apply filter_ext.
  intros c. destruct (Spec.is_separator c) eqn:E; [|reflexivity].
  simpl. symmetry. now apply separator_not_digit.
Qed.

Lemma validate_phone_count (p : string) :
  validate_phone p = (10 <=? length (filter isdigit (list_ascii_of_string p)))%nat.
Proof.
  unfold validate_phone. now rewrite sum_ones_filter, clean_phone_spec, digits_of_clean.
Qed.

(** X18.  [validate_phone] counts the digit characters of the whole text, so
    removing the separators first changes nothing; a character that is no
    digit, wherever it stands, does not change the answer; text around a
    valid number leaves it valid; and a valid number has at least ten
    characters. *)
Theorem validate_phone_digits_only (p : string) :
  validate_phone p = (10 <=? sum_ones isdigit p)%nat
  /\ (forall a c b,
        isdigit c = false ->
        validate_phone (a ++ String c b) = validate_phone (a ++ b))
  /\ (forall a b, validate_phone p = true -> validate_phone (a ++ p ++ b) = true)
  /\ (validate_phone p = true -> 10 <= String.length p).
Proof.
  split; [now rewrite validate_phone_count, sum_ones_filter|]. split; [|split].
  - intros a c b Hc. rewrite !validate_phone_count, !list_of_append. simpl.
    rewrite !filter_app. simpl. now rewrite Hc.
  - intros a b. rewrite !validate_phone_count, !list_of_append, !filter_app,
      !length_app. rewrite !Nat.leb_le. lia.
  - rewrite validate_phone_count, Nat.leb_le. intros H.
    pose proof (filter_length_le isdigit (list_ascii_of_string p)) as L.
    assert (E : length (list_ascii_of_string p) = String.length p).
    { clear. induction p as [|c p IH]; simpl; [reflexivity | now rewrite IH]. }
    lia.
Qed.

(** ** The text of the file *)

Lemma plain_append (a b : string) : plain a -> plain b -> plain (a ++ b).
Proof. unfold plain. rewrite list_of_append. intros. now apply Forall_app. Qed.

Lemma plain_cons (c : ascii) (s : string) :
  is_plain c = true -> plain s -> plain (String c s).
Proof. intros. now constructor. Qed.

Lemma plain_check (s : string) :
  forallb is_plain (list_ascii_of_string s) = true -> plain s.
Proof.
  unfold plain. rewrite forallb_forall, Forall_forall. auto.
Qed.

Lemma plain_encode_char (c : ascii) : plain (encode_char c).
Proof.
  apply plain_check. destruct c as [[] [] [] [] [] [] [] []]; reflexivity.
Qed.

Lemma plain_encode_str (s : string) : plain (encode_str s).
Proof.
  unfold encode_str. apply plain_cons; [reflexivity|].
  induction s as [|c s IH]; cbn [encode_chars append].
  - now apply plain_check.
  - rewrite append_assoc. apply plain_append; [apply plain_encode_char | exact IH].
Qed.

Lemma plain_times_space (n : nat) : plain (times " " n).
Proof. induction n as [|n IH]; simpl; [constructor | now apply plain_cons]. Qed.

Lemma plain_newline_indent (indent level : nat) : plain (newline_indent indent level).
Proof. apply plain_cons; [reflexivity | apply plain_times_space]. Qed.

Lemma plain_concat (sep : string) (l : list string) :
  plain sep -> Forall plain l -> plain (String.concat sep l).
Proof.
  intros Hs H. induction H as [|x l Hx Hl IH]; [constructor|].
  destruct l as [|y l]; [exact Hx|].
  change (String.concat sep (x :: y :: l)) with (x ++ sep ++ String.concat sep (y :: l)).
  repeat apply plain_append; assumption.
Qed.

Lemma plain_encode_dict (indent level : nat) (items : list (string * string)) :
  Forall (fun kv => plain (snd kv)) items ->
  plain (encode_dict indent level items).
Proof.
  intros H. unfold encode_dict. destruct items as [|kv items]; [repeat constructor|].
  remember (kv :: items) as its.
  apply plain_cons; [reflexivity|].
  repeat apply plain_append; try apply plain_newline_indent;
    [|repeat constructor].
  apply plain_concat.
  - apply plain_cons; [reflexivity | apply plain_newline_indent].
  - apply Forall_map. clear Heqits. induction H as [|x l Hx Hl IH]; constructor; [|exact IH].
    repeat apply plain_append; [apply plain_encode_str | repeat constructor | exact Hx].
Qed.

(** X19.  The text [json.dump] writes for the mapping holds only printable ASCII
    characters and line feeds, whatever the names and fields contain. *)
Theorem dumps_is_ascii (indent : nat) (cs : Contacts) :
  Forall (fun c => is_plain c = true) (list_ascii_of_string (dumps indent cs)).
Proof.
  change (plain (dumps indent cs)). unfold dumps. apply plain_encode_dict.
  apply Forall_map, Forall_forall. intros [k c] _. cbn [snd].
  unfold dumps_contact. apply plain_encode_dict.
  repeat (constructor; [apply plain_encode_str|]). constructor.
Qed.


(** ** The menu loop *)

Import Shell.

Lemma run_session_app (calls1 calls2 : list call) (w : World) :
  run_session (calls1 ++ calls2)%list w = run_session calls2 (run_session calls1 w).
Proof. unfold run_session. apply fold_left_app. Qed.

Lemma run_call_store_eq (k : call) (w1 w2 : World) :
  store_of w1 = store_of w2 ->
  store_of (run_call k w1) = store_of (run_call k w2).
Proof.
  destruct w1 as [cs d t1], w2 as [cs2 d2 t2]. unfold store_of at 1 2.
  cbn [contacts disk]. intros [= <- <-]. destruct k as [now name phone_number new_email new_address
                | name phone_number new_email new_address | query | name | name | ]; cbn [run_call].
  - rewrite !add_contact_cases. cbn [contacts].
    destruct (list_in _ _); [reflexivity|].
    destruct (validate_phone _); reflexivity.
  - rewrite !edit_contact_cases. cbn [contacts].
    destruct (find_key _ _); [|reflexivity].
    destruct (supplied phone_number) as [p|];
      [destruct (validate_phone p)|]; reflexivity.
  - reflexivity.
  - rewrite !delete_contact_cases. cbn [contacts].
    destruct (find_key _ _); reflexivity.
  - unfold display_contact, bind, get_contacts. cbn [fst snd contacts].
    destruct (find_key _ _) as [key|]; [|reflexivity].
    destruct (Dict.get key cs); reflexivity.
  - rewrite !list_all_contacts_lines. reflexivity.
Qed.

Lemma run_session_store_eq (calls : list call) (w1 w2 : World) :
  store_of w1 = store_of w2 ->
  store_of (run_session calls w1) = store_of (run_session calls w2).
Proof.
  revert w1 w2. induction calls as [|k calls IH]; intros w1 w2 H; simpl; [exact H|].
  apply IH. now apply run_call_store_eq.
Qed.

Lemma follows_refl (c : Console) : follows c c.
Proof. split; [now exists [] | now exists []]. Qed.

Lemma follows_trans (c1 c2 c3 : Console) :
  follows c1 c2 -> follows c2 c3 -> follows c1 c3.
Proof.
  intros [[u1 H1] [k1 S1]] [[u2 H2] [k2 S2]]. split.
  - exists (u1 ++ u2)%list. now rewrite H1, H2, app_assoc.
  - exists (k1 ++ k2)%list. rewrite run_session_app, <- S2.
    apply run_session_store_eq. exact S1.
Qed.

Lemma lawful_sret {A} (a : A) : lawful (sret a).
Proof. intros c. split; [apply follows_refl | discriminate]. Qed.

Lemma lawful_say (line : string) : lawful (say line).
Proof.
  intros c. split; [|discriminate].
  split; [now exists [] | now exists []].
Qed.

Lemma lawful_input (prompt : string) : lawful (input prompt).
Proof.
  intros c. unfold input. destruct (stdin c) as [|line rest] eqn:E; cbn [fst snd].
  - split; [|reflexivity]. split; [exists []; now rewrite E | now exists []].
  - split; [|discriminate]. split; [exists [line]; now rewrite E | now exists []].
Qed.

Lemma lawful_call {A} (k : call) (m : M A) :
  (forall w, snd (m w) = run_call k w) -> lawful (invoke m).
Proof.
  intros H c. unfold invoke. pose proof (H (mkWorld (book c) (file c) [])) as E.
  destruct (m (mkWorld (book c) (file c) [])) as [a w]. cbn [fst snd] in *.
  split; [|discriminate]. split; [now exists []|].
  exists [k]. simpl. unfold world_of. now rewrite <- E.
Qed.

Lemma lawful_bind {A B} (m : Sh A) (f : A -> Sh B) :
  lawful m -> (forall a, lawful (f a)) -> lawful (sbind m f).
Proof.
  intros Hm Hf c. unfold sbind. specialize (Hm c).
  destruct (m c) as [[a|] c1]; cbn [fst snd] in *.
  - destruct (Hf a c1) as [F E]. split; [|exact E].
    eapply follows_trans; [exact (proj1 Hm) | exact F].
  - split; [exact (proj1 Hm) | intros _; now apply (proj2 Hm)].
Qed.

Create HintDb shell.
#[local] Hint Resolve lawful_sret lawful_say lawful_input : shell.

Ltac lawful_invoke :=
  lazymatch goal with
  | |- lawful (invoke (add_contact ?t ?n ?p ?e ?a)) =>
      apply (lawful_call (CallAdd t n p e a))
  | |- lawful (invoke (edit_contact ?n ?p ?e ?a)) =>
      apply (lawful_call (CallEdit n p e a))
  | |- lawful (invoke (search_contact ?q)) => apply (lawful_call (CallSearch q))
  | |- lawful (invoke (delete_contact ?n)) => apply (lawful_call (CallDelete n))
  | |- lawful (invoke (display_contact ?n)) => apply (lawful_call (CallDisplay n))
  | |- lawful (invoke list_all_contacts) => apply (lawful_call CallListAll)
  end; reflexivity.

Ltac lawful_step :=
  repeat first
    [ apply lawful_bind; [|intros ?]
    | solve [auto with shell]
    | lawful_invoke
    | match goal with
      | |- lawful (if ?b then _ else _) => destruct b
      | |- lawful (match ?x with [] => _ | _ :: _ => _ end) => destruct x
      end ].

Lemma lawful_display_menu : lawful display_menu.
Proof. unfold display_menu. lawful_step. Qed.

Lemma lawful_show_results (results : list (string * Contact)) :
  lawful (show_results results).
Proof.
  induction results as [|[name details] rest IH]; simpl; lawful_step.
Qed.

#[local] Hint Resolve lawful_display_menu lawful_show_results : shell.

Lemma lawful_act (now : datetime) (choice : string) : lawful (act now choice).
Proof. unfold act. lawful_step. Qed.

Lemma lawful_turn (now : datetime) : lawful (turn now).
Proof.
  unfold turn. lawful_step. apply lawful_act.
Qed.

(** Only the choice 7 ends the loop. *)

Lemma goes_on_bind {A} (m : Sh A) (f : A -> Sh bool) :
  (forall a, goes_on (f a)) -> goes_on (sbind m f).
Proof.
  intros Hf c c' b. unfold sbind. destruct (m c) as [[a|] c1]; [|discriminate].
  apply Hf.
Qed.

Lemma goes_on_true : goes_on (sret true).
Proof. intros c c' b [= <- _]. reflexivity. Qed.

Ltac goes_on_step :=
  repeat first [ apply goes_on_true | apply goes_on_bind; intros ? ].

Ltac never_stops :=
  let H := fresh "H" in
  intros H; exfalso;
  lazymatch type of H with
  | ?m ?c = (Some false, ?c') =>
      let G := fresh "G" in
      assert (G : goes_on m) by goes_on_step;
      specialize (G c c' false H); discriminate
  end.

Lemma act_stops (now : datetime) (choice : string) (c c' : Console) :
  act now choice c = (Some false, c') ->
  choice = "7"
  /\ c' = mkConsole (book c) (file c) (stdin c) (terminal c ++ [goodbye]).
Proof.
  unfold act.
  repeat match goal with
         | |- (if String.eqb choice ?s then _ else _) c = _ -> _ =>
             let E := fresh "E" in
             destruct (String.eqb_spec choice s) as [E|E]; [try never_stops|]
         end.
  - unfold sbind, say, sret. cbn. intros H. inversion H.
    split; [assumption | reflexivity].
  - never_stops.
Qed.

Lemma say_then_keeps {A} (line : string) (m : Sh A) (a : A) :
  (forall c, exists shown,
      m c = (Some a, mkConsole (book c) (file c) (stdin c) (terminal c ++ shown))) ->
  forall c, exists shown,
    (say line ;;; m) c
    = (Some a, mkConsole (book c) (file c) (stdin c) (terminal c ++ shown)).
Proof.
  intros H c. unfold sbind, say at 1.
  destruct (H (mkConsole (book c) (file c) (stdin c)
                 (terminal c ++ [Shown (Printed line)]))) as [shown ->].
  cbn [book file stdin terminal]. exists (Shown (Printed line) :: shown).
  now rewrite <- app_assoc.
Qed.

Lemma display_menu_keeps (c : Console) :
  exists shown,
    display_menu c
    = (Some tt, mkConsole (book c) (file c) (stdin c) (terminal c ++ shown)).
Proof.
  revert c. unfold display_menu. do 10 apply say_then_keeps.
  intros c. eexists. reflexivity.
Qed.

Lemma turn_reads (now : datetime) (c c' : Console) (b : bool) :
  turn now c = (Some b, c') ->
  exists line rest,
    stdin c = line :: rest
    /\ (exists used, rest = (used ++ stdin c')%list)
    /\ (b = false ->
        strip line = "7" /\ exists shown, terminal c' = (shown ++ [goodbye])%list).
Proof.
  unfold turn, sbind at 1. destruct (display_menu_keeps c) as [shown ->].
  unfold sbind, input. cbn [stdin terminal book file].
  destruct (stdin c) as [|line rest]; [discriminate|].
  intros H. exists line, rest. split; [reflexivity|]. split.
  - pose proof (proj1 (lawful_act now (strip line)
        (mkConsole (book c) (file c) rest
           ((terminal c ++ shown) ++ [Prompted "Enter your choice (1-7): "])))) as F.
    rewrite H in F. destruct F as [[used E] _]. cbn [stdin snd] in E. now exists used.
  - intros ->. apply act_stops in H as [E ->]. split; [exact E|].
    cbn [terminal]. eexists. reflexivity.
Qed.

Lemma lawful_menu_loop (fuel : nat) (clock : nat -> datetime) (c : Console) :
  follows c (snd (menu_loop fuel clock c))
  /\ (fst (menu_loop fuel clock c) = EOFError ->
      stdin (snd (menu_loop fuel clock c)) = []).
Proof.
  revert clock c. induction fuel as [|n IH]; intros clock c; cbn [menu_loop].
  - split; [apply follows_refl | discriminate].
  - destruct (lawful_turn (clock 0) c) as [F E].
    destruct (turn (clock 0) c) as [[[|]|] c1]; cbn [fst snd] in *.
    + destruct (IH (fun i => clock (S i)) c1) as [F1 E1].
      split; [eapply follows_trans; eassumption | exact E1].
    + split; [exact F | discriminate].
    + split; [exact F | intros _; now apply E].
Qed.

Lemma menu_loop_ends (fuel : nat) (clock : nat -> datetime) (c : Console) :
  length (stdin c) < fuel ->
  fst (menu_loop fuel clock c) <> NoFuel
  /\ (fst (menu_loop fuel clock c) = Stopped ->
      (exists line, In line (stdin c) /\ strip line = "7")
      /\ exists shown, terminal (snd (menu_loop fuel clock c)) = (shown ++ [goodbye])%list).
Proof.
  revert clock c. induction fuel as [|n IH]; intros clock c L; [lia|].
  cbn [menu_loop]. destruct (turn (clock 0) c) as [[[|]|] c1] eqn:T; cbn [fst snd].
  - apply turn_reads in T as (line & rest & E & [used Eu] & _).
    assert (L1 : length (stdin c1) < n).
    { rewrite E, Eu in L. cbn [length] in L. rewrite length_app in L. lia. }
    destruct (IH (fun i => clock (S i)) c1 L1) as [H1 H2].
    split; [exact H1|]. intros Hs. destruct (H2 Hs) as [(l & Hin & El) Hg].
    split; [|exact Hg]. exists l. split; [|exact El].
    rewrite E, Eu. right. apply in_or_app. now right.
  - apply turn_reads in T as (line & rest & E & _ & H). split; [discriminate|].
    intros _. destruct (H eq_refl) as [El Hg]. split; [|exact Hg].
    exists line. split; [rewrite E; now left | exact El].
  - split; discriminate.
Qed.

(** ** [main] *)


Lemma follows_invariants (c c' : Console) :
  follows c c' ->
  (exists calls,
      store_of (run_session calls (world_of c)) = (book c', file c'))
  /\ (Spec.ci_unique (book c) -> Spec.ci_unique (book c'))
  /\ (phones_valid (book c) -> phones_valid (book c'))
  /\ (file c = Some (dumps 4 (book c)) -> file c' = Some (dumps 4 (book c'))).
Proof.
  intros [_ [calls E]].
  pose proof (f_equal fst E) as Eb. pose proof (f_equal snd E) as Ef.
  unfold store_of in Eb, Ef. cbn [fst snd] in Eb, Ef.
  split; [now exists calls|].
  rewrite <- Eb, <- Ef. split; [|split].
  - intros H. now apply run_session_ci_unique.
  - intros H. now apply run_session_phones_valid.
  - intros H. now apply (run_session_in_sync calls (world_of c)).
Qed.

(** X22.  Whatever is typed, [main] changes the mapping and the file only through
    the methods of the class: what it leaves is what some sequence of method
    calls leaves.  So keys that differ beyond letter case, valid stored
    phone numbers and a file that holds the dump of the mapping are all kept
    to the end of the run. *)
Theorem main_runs_a_session (clock : nat -> datetime) (c : Console) :
  let c' := snd (main clock c) in
  (exists calls,
      store_of (run_session calls (world_of c)) = (book c', file c'))
  /\ (Spec.ci_unique (book c) -> Spec.ci_unique (book c'))
  /\ (phones_valid (book c) -> phones_valid (book c'))
  /\ (file c = Some (dumps 4 (book c)) -> file c' = Some (dumps 4 (book c'))).
Proof.
  exact (follows_invariants c (snd (main clock c))
           (proj1 (lawful_menu_loop (S (length (stdin c))) clock c))).
Qed.

(** One turn, branch by branch *)

Lemma turn_choice (now : datetime) (c : Console) (line : string) (rest : list string) :
  stdin c = line :: rest ->
  turn now c
  = act now (strip line)
      (mkConsole (book c) (file c) rest
         (terminal (snd (display_menu c)) ++ [Prompted "Enter your choice (1-7): "])).
Proof.
  intros E. unfold turn, sbind at 1. destruct (display_menu_keeps c) as [shown ->].
  unfold sbind, input. cbn [stdin terminal book file snd]. now rewrite E.
Qed.

Lemma input_line (prompt line : string) (b : Contacts) (f : option string)
    (rest : list string) (t : list output) :
  input prompt (mkConsole b f (line :: rest) t)
  = (Some (strip line), mkConsole b f rest (t ++ [Prompted prompt])).
Proof. reflexivity. Qed.

(** X23.  A choice that, once stripped, is none of [1] to [7] is answered with
    [Invalid choice! Please try again.]: one line of input is read, the
    mapping and the file are untouched, and the loop goes on. *)
Theorem turn_unknown_choice (now : datetime) (c : Console)
    (line : string) (rest : list string) :
  stdin c = line :: rest ->
  ~ In (strip line) ["1"; "2"; "3"; "4"; "5"; "6"; "7"] ->
  turn now c
  = (Some true,
     mkConsole (book c) (file c) rest
       (terminal (snd (display_menu c))
        ++ [Prompted "Enter your choice (1-7): ";
            Shown (Printed "Invalid choice! Please try again.")])).
Proof.
  intros E Hn. rewrite (turn_choice now c line rest E). unfold act.
  repeat match goal with
         | |- context [String.eqb (strip line) ?s] =>
             destruct (String.eqb_spec (strip line) s) as [Es|_];
             [exfalso; apply Hn; rewrite Es; simpl; tauto|]
         end.
  unfold sbind, say, sret. cbn [book file stdin terminal].
  now rewrite <- app_assoc.
Qed.

(** X24.  Choice [4] reads a name and a confirmation and goes on.  An answer that
    is not [yes], up to letter case and surrounding blanks, cancels: the
    mapping and the file are untouched and [Deletion cancelled.] is the last
    line printed.  The answer [yes] leaves what [delete_contact] of the
    stripped name leaves. *)
Theorem turn_delete_asks_first (now : datetime) (c : Console)
    (choice name answer : string) (rest : list string) :
  stdin c = choice :: name :: answer :: rest ->
  strip choice = "4" ->
  exists c',
    turn now c = (Some true, c')
    /\ stdin c' = rest
    /\ (lower (strip answer) <> "yes" ->
        book c' = book c /\ file c' = file c
        /\ exists shown,
             terminal c' = (shown ++ [Shown (Printed "Deletion cancelled.")])%list)
    /\ (lower (strip answer) = "yes" ->
        (book c', file c')
        = store_of (snd (delete_contact (strip name) (world_of c)))).
Proof.
  intros E Hc. rewrite (turn_choice now c choice _ E), Hc. unfold act.
  cbn [String.eqb Ascii.eqb Bool.eqb]. cbv iota.
  unfold sbind at 1. rewrite input_line. unfold sbind at 1. rewrite input_line.
  destruct (String.eqb_spec (lower (strip answer)) "yes") as [Ey|Ey].
  - unfold sbind, invoke, sret. cbn [book file stdin terminal].
    destruct (delete_contact (strip name) (mkWorld (book c) (file c) [])) as [b w] eqn:D.
    eexists. split; [reflexivity|]. cbn [stdin book file]. split; [reflexivity|].
    split; [contradiction|]. intros _. unfold world_of. now rewrite D.
  - unfold sbind, say, sret. cbn [book file stdin terminal].
    eexists. split; [reflexivity|]. cbn [stdin book file terminal].
    split; [reflexivity|]. split; [|contradiction].
    intros _. repeat split. eexists. reflexivity.
Qed.

(** X25.  Choice [3] with the three fields left blank passes [None] for each of
    them: for a contact that exists the edit succeeds, the mapping is
    unchanged and the file is written again with its dump. *)
Theorem turn_edit_blank_fields (now : datetime) (c : Console)
    (choice name new_phone new_email new_address : string) (rest : list string) :
  stdin c = choice :: name :: new_phone :: new_email :: new_address :: rest ->
  strip choice = "3" ->
  strip new_phone = "" -> strip new_email = "" -> strip new_address = "" ->
  Spec.has_match (strip name) (book c) ->
  exists c',
    turn now c = (Some true, c')
    /\ book c' = book c
    /\ file c' = Some (dumps 4 (book c))
    /\ stdin c' = rest.
Proof.
  intros E Hc Hp He Ha Hm. rewrite (turn_choice now c choice _ E), Hc. unfold act.
  cbn [String.eqb Ascii.eqb Bool.eqb]. cbv iota.
  unfold sbind at 1. rewrite input_line.
  unfold sbind at 1, say at 1. cbn [book file stdin terminal].
  unfold sbind at 1. rewrite input_line.
  unfold sbind at 1. rewrite input_line.
  unfold sbind at 1. rewrite input_line.
  rewrite Hp, He, Ha. cbn [or_none].
  destruct (has_match_find_key _ _ Hm) as [key Hk].
  unfold sbind, invoke, sret. cbn [book file stdin terminal].
  rewrite edit_contact_cases. cbn [contacts]. rewrite Hk. cbn [supplied].
  eexists. split; [reflexivity|]. cbn [book file stdin saved contacts disk].
  repeat split; reflexivity.
Qed.

(** The sample session at the terminal, run from a first start: Alice is
    added, shown, kept at the first answer and deleted at the second; the
    line after [7] is never read. *)
Example main_typed_lines :
  let r := main (fun _ => new_year) fresh_console in
  fst r = Stopped
  /\ book (snd r) = []
  /\ file (snd r) = Some "{}"
  /\ stdin (snd r) = ["never read"].
Proof. vm_compute. repeat split. Qed.

(** ** The properties on examples *)

Lemma wf_carol : Dict.wf (contacts carol_world).
Proof. unfold Dict.wf. repeat constructor. simpl. tauto. Defined.

Lemma match_carol (name : string) :
  lower name = "carol" -> Spec.has_match name (contacts carol_world).
Proof.
  intros H. exists "Carol". split; [now left|].
  unfold Spec.ci_equal. now rewrite H.
Defined.

(** X1, on an example. *)
Lemma find_key_first_match_witness :
  Spec.ci_equal "Bob" "bob"
  /\ (forall k, In k ["Alice"] -> ~ Spec.ci_equal k "bob")
  /\ find_key "bob" three_names = Some "Bob".
Proof.
  assert (H : forall k, In k ["Alice"] -> ~ Spec.ci_equal k "bob").
  { intros k [<-|[]]. discriminate. }
  split; [reflexivity|]. split; [exact H|].
  exact (find_key_first_match "bob" "Bob" ["Alice"] ["bob"] eq_refl H).
Defined.

(** X2, on an example. *)
Lemma find_key_resolves_witness :
  Spec.ci_unique (contacts carol_world)
  /\ In "Carol" (Dict.keys (contacts carol_world))
  /\ Spec.ci_equal "cArOl" "Carol"
  /\ find_key "cArOl" (Dict.keys (contacts carol_world)) = Some "Carol".
Proof.
  assert (H1 : Spec.ci_unique (contacts carol_world)).
  { unfold Spec.ci_unique. repeat constructor. simpl. tauto. }
  assert (H2 : In "Carol" (Dict.keys (contacts carol_world))) by now left.
  split; [exact H1|]. split; [exact H2|]. split; [reflexivity|].
  exact (find_key_resolves "cArOl" "Carol" (contacts carol_world) H1 H2 eq_refl).
Defined.



(** X7, on an example. *)
Lemma edit_contact_twice_witness :
  edit_contact "carol" None (Some "new@example.com") None carol_world
  = (true, carol_edited)
  /\ exists w2,
       edit_contact "carol" None (Some "new@example.com") None carol_edited
       = (true, w2)
       /\ contacts w2 = contacts carol_edited
       /\ disk w2 = disk carol_edited.
Proof.
  split; [reflexivity|].
  exact (edit_contact_twice "carol" None (Some "new@example.com") None
           carol_world carol_edited eq_refl).
Defined.

Lemma no_dave : ~ Spec.has_match "Dave" (contacts carol_world).
Proof. intros (key & [<-|[]] & E). discriminate. Defined.

(** X8, on an example. *)
Lemma delete_contact_missing_witness :
  ~ Spec.has_match "Dave" (contacts carol_world)
  /\ delete_contact "Dave" carol_world
     = (false, printed "Contact 'Dave' not found!" carol_world).
Proof.
  split; [exact no_dave|]. exact (delete_contact_missing "Dave" carol_world no_dave).
Defined.

(** X9, on an example. *)
Lemma delete_contact_removes_witness :
  Spec.has_match "carol" (contacts carol_world)
  /\ exists key details before after,
       contacts carol_world = (before ++ (key, details) :: after)%list
       /\ Spec.ci_equal key "carol"
       /\ ~ Spec.has_match "carol" before
       /\ delete_contact "carol" carol_world
          = (true, saved (before ++ after)%list
                     ["Contact '" ++ key ++ "' deleted successfully!"] carol_world)
       /\ (Spec.ci_unique (contacts carol_world) ->
           ~ Spec.has_match "carol" (before ++ after)%list).
Proof.
  split; [exact (match_carol "carol" eq_refl)|].
  exact (delete_contact_removes "carol" carol_world (match_carol "carol" eq_refl)).
Defined.

Lemma no_alice : ~ Spec.has_match "Alice" (contacts empty_world).
Proof. intros (key & [] & _). Defined.

(** X10, on an example. *)
Lemma add_then_delete_witness :
  ~ Spec.has_match "Alice" (contacts empty_world)
  /\ validate_phone "5551234567" = true
  /\ Spec.ci_equal "ALICE" "Alice"
  /\ fst (delete_contact "ALICE"
            (snd (add_contact new_year "Alice" "5551234567" "" "" empty_world)))
     = true
  /\ contacts (snd (delete_contact "ALICE"
                      (snd (add_contact new_year "Alice" "5551234567" "" ""
                              empty_world))))
     = contacts empty_world.
Proof.
  split; [exact no_alice|]. split; [reflexivity|]. split; [reflexivity|].
  exact (add_then_delete new_year "Alice" "ALICE" "5551234567" "" "" empty_world
           no_alice eq_refl eq_refl).
Defined.


(** X15, on an example. *)
Lemma mutation_is_saved_witness :
  contacts (run_call (CallAdd new_year "Alice" "5551234567" "" "") empty_world)
  <> contacts empty_world
  /\ in_sync (run_call (CallAdd new_year "Alice" "5551234567" "" "") empty_world).
Proof.
  assert (H : contacts (run_call (CallAdd new_year "Alice" "5551234567" "" "")
                          empty_world)
              <> contacts empty_world) by discriminate.
  split; [exact H|].
  exact (proj1 (mutation_is_saved (CallAdd new_year "Alice" "5551234567" "" "")
                  empty_world H)).
Defined.

(** X16, on an example. *)
Lemma session_keeps_phones_valid_witness :
  phones_valid (contacts empty_world)
  /\ phones_valid (contacts (run_session session empty_world)).
Proof.
  assert (H : phones_valid (contacts empty_world)) by constructor.
  split; [exact H|]. exact (session_keeps_phones_valid session empty_world H).
Defined.


Lemma wf_duplicate_names : Dict.wf duplicate_names.
Proof. unfold Dict.wf. repeat constructor; simpl; intuition discriminate. Defined.


(** X23, on an example. *)
Lemma turn_unknown_choice_witness :
  stdin (carol_console [" 9 "; "7"]) = [" 9 "; "7"]
  /\ ~ In (strip " 9 ") ["1"; "2"; "3"; "4"; "5"; "6"; "7"]
  /\ turn new_year (carol_console [" 9 "; "7"])
     = (Some true,
        mkConsole (contacts carol_world) (disk carol_world) ["7"]
          (terminal (snd (display_menu (carol_console [" 9 "; "7"])))
           ++ [Prompted "Enter your choice (1-7): ";
               Shown (Printed "Invalid choice! Please try again.")])).
Proof.
  assert (H : ~ In (strip " 9 ") ["1"; "2"; "3"; "4"; "5"; "6"; "7"]).
  { simpl. intuition discriminate. }
  split; [reflexivity|]. split; [exact H|].
  exact (turn_unknown_choice new_year (carol_console [" 9 "; "7"]) " 9 " ["7"]
           eq_refl H).
Defined.

(** X24, on an example. *)
Lemma turn_delete_asks_first_witness :
  stdin (carol_console ["4"; "carol"; "no"; "7"]) = ["4"; "carol"; "no"; "7"]
  /\ strip "4" = "4"
  /\ exists c',
       turn new_year (carol_console ["4"; "carol"; "no"; "7"]) = (Some true, c')
       /\ stdin c' = ["7"]
       /\ book c' = contacts carol_world.
Proof.
  split; [reflexivity|]. split; [reflexivity|].
  destruct (turn_delete_asks_first new_year (carol_console ["4"; "carol"; "no"; "7"])
              "4" "carol" "no" ["7"] eq_refl eq_refl)
    as (c' & Ht & Hs & Hno & _).
  exists c'. split; [exact Ht|]. split; [exact Hs|].
  apply Hno. discriminate.
Defined.

(** X25, on an example. *)
Lemma turn_edit_blank_fields_witness :
  stdin (carol_console ["3"; " CAROL"; ""; "  "; ""]) = ["3"; " CAROL"; ""; "  "; ""]
  /\ strip "  " = ""
  /\ Spec.has_match (strip " CAROL") (contacts carol_world)
  /\ exists c',
       turn new_year (carol_console ["3"; " CAROL"; ""; "  "; ""]) = (Some true, c')
       /\ book c' = contacts carol_world
       /\ file c' = Some (dumps 4 (contacts carol_world))
       /\ stdin c' = [].
Proof.
  split; [reflexivity|]. split; [reflexivity|].
  split; [exact (match_carol "CAROL" eq_refl)|].
  exact (turn_edit_blank_fields new_year (carol_console ["3"; " CAROL"; ""; "  "; ""])
           "3" " CAROL" "" "  " "" [] eq_refl eq_refl eq_refl eq_refl eq_refl
           (match_carol "CAROL" eq_refl)).
Defined.
